(** * PyPLE: the operator model, its evaluator and the engine's regex cache

    A shallow embedding of [pyple.py] (release 0.3.1): the [Operator] class
    hierarchy with its [eval] methods, [Operator.addParameter] and
    [Operator.dump], and the [Engine] methods [new_op], [get_op],
    [cache_regex] and [compound_regex_rule].

    Python objects have identity, so operators live in a store indexed by
    object id and refer to their parameters by id.  [eval] recurses through
    the store; since nothing stops a store from being cyclic the embedding
    recurses on a fuel argument, and totality is proved separately for
    stores that have a rank.  Runs are instrumented with a log of the calls
    to [re.compile] and to [eval], the two things the specification counts. *)

From Stdlib Require Import Ascii String.
From stdpp Require Import base option list strings gmap pretty.

Local Open Scope string_scope.
Local Open Scope list_scope.
Local Open Scope nat_scope.

(** ** Python values, exceptions and runs *)

(** What an [eval] method can return: [True], [False], or [None] (the
    base class's [pass]). *)
Inductive value :=
| VNone
| VBool (b : bool).

(** Python truth value testing, as used by [if], [not] and [and]. *)
Definition truthy (v : value) : bool :=
  match v with
  | VNone => false
  | VBool b => b
  end.

Inductive exn :=
| ValueError (msg : string)
| AssertionError (msg : string)
| TypeError
| IndexError
| re_error
| SQLObjectNotFound.

Inductive outcome (A : Type) :=
| Return (a : A)
| Raise (e : exn)
| OutOfFuel.
Arguments Return {A} a.
Arguments Raise {A} e.
Arguments OutOfFuel {A}.

(** Object ids, as the object store hands them out. *)
Abbreviation oid := nat (only parsing).

(** Instrumentation: a call of [re.compile(pattern, flags)] and a call of
    some operator's [eval]. *)
Inductive event :=
| Compile (pattern : string) (ignorecase : bool)
| Eval (self : oid).

Definition Run (A : Type) : Type := list event * outcome A.

Definition ret {A} (a : A) : Run A := ([], Return a).
Definition raise {A} (e : exn) : Run A := ([], Raise e).
Definition tell (ev : event) : Run unit := ([ev], Return tt).

Definition bind {A B} (m : Run A) (k : A → Run B) : Run B :=
  match m with
  | (log, Return a) => let (log', r) := k a in (log ++ log', r)
  | (log, Raise e) => (log, Raise e)
  | (log, OutOfFuel) => (log, OutOfFuel)
  end.

#[export] Instance Run_ret : MRet Run := @ret.
#[export] Instance Run_bind : MBind Run := λ A B k m, bind m k.

(** The [assert cond, msg] statement, as the interpreter runs it when
    assertions are enabled (its default). *)
Definition assert (cond : bool) (msg : string) : Run unit :=
  if cond then ret tt else raise (AssertionError msg).

Definition log_of {A} (m : Run A) : list event := m.1.
Definition result_of {A} (m : Run A) : outcome A := m.2.

(** ** The [re] module

    The pattern matcher is a collaborator of the program.  A compiled
    pattern object remembers the pattern text and the flags it was compiled
    with; what the library decides is which patterns compile and whether a
    compiled pattern matches a text starting at a given position. *)

Record Regex := { rx_pattern : string; rx_ignorecase : bool }.

Class ReModule := {
  re_valid : string → bool;
  re_match_at : Regex → string → nat → bool
}.

Section Re.
Context `{ReModule}.

(** [re.compile(pattern)] and [re.compile(pattern, re.IGNORECASE)]. *)
Definition re_compile (pattern : string) (ignorecase : bool) : Run Regex :=
  tell (Compile pattern ignorecase);;
  if re_valid pattern
  then ret {| rx_pattern := pattern; rx_ignorecase := ignorecase |}
  else raise re_error.

(** [r.search(data)]: scan the positions of the text from the left and
    stop at the first one where the pattern matches; the match object is
    represented by that position, and no match by [None].  Only text can
    be searched. *)
Definition Regex_search (r : Regex) (data : option string) : Run (option nat) :=
  match data with
  | None => raise TypeError
  | Some text => ret (find (re_match_at r text) (seq 0 (S (String.length text))))
  end.
End Re.

(** ** Operators *)

Inductive OpClass :=
| Operator | AlwaysTrueOp | AlwaysFalseOp | RegexOp
| AND | OR | NOT | XOR | NAND | NOR.

#[export] Instance OpClass_eq_dec : EqDecision OpClass.
Proof. solve_decision. Defined.

(** One operator object.  [pattern] and [case_sensitive] are the columns of
    [RegexOp]; the other classes do not read them. *)
Record Node := {
  cls : OpClass;
  name : option string;
  parameters : list oid;
  pattern : string;
  case_sensitive : bool;
  connection : option string
}.

(** The object store: the operator with id [i] is at index [i]. *)
Abbreviation Store := (list Node) (only parsing).

Definition set_parameters (ps : list oid) (n : Node) : Node :=
  {| cls := cls n; name := name n; parameters := ps; pattern := pattern n;
     case_sensitive := case_sensitive n; connection := connection n |}.

Definition set_connection (c : option string) (n : Node) : Node :=
  {| cls := cls n; name := name n; parameters := parameters n;
     pattern := pattern n; case_sensitive := case_sensitive n;
     connection := c |}.

(** Modelled from the spec: [addOperator] is generated by the object store
    for the [parameters] join and is not part of the program; it is the
    store's append-child operation, which puts the child at the end of the
    parent's children sequence. *)
Definition addOperator (s : Store) (self param : oid) : Store :=
  alter (λ n, set_parameters (parameters n ++ [param]) n) self s.

Definition addParameter (s : Store) (self param : oid) : Store * Run unit :=
  if decide (param = self)
  then (s, raise (ValueError "A rule cannot contain itself as a sub-rule!"))
  else (addOperator s self param, ret tt).

(** ** The engine *)

Record Engine := {
  debuglevel : nat;
  dbconnection : option string;
  re_cache : gmap string Regex
}.

(** [Engine.__init__]. *)
Definition Engine_init (debug : nat) : Engine :=
  {| debuglevel := debug; dbconnection := None; re_cache := ∅ |}.

(** [engine.re_cache[pattern] = r]. *)
Definition re_cache_set (engine : Engine) (pattern : string) (r : Regex) : Engine :=
  {| debuglevel := debuglevel engine; dbconnection := dbconnection engine;
     re_cache := <[pattern := r]> (re_cache engine) |}.

Section Program.
Context `{ReModule}.

(** *** [RegexOp] *)

Definition RegexOp_compile (self : Node) (engine : option Engine)
  : option Engine * Run Regex :=
  let r :=
    if case_sensitive self
    then re_compile (pattern self) false
    else re_compile (pattern self) true in
  match r with
  | (_, Return rx) =>
      (match engine with
       | Some e => Some (re_cache_set e (pattern self) rx)
       | None => None
       end, r)
  | _ => (engine, r)
  end.

Definition RegexOp_eval (self : Node) (data : option string)
    (engine : option Engine) : option Engine * Run value :=
  let '(engine', tmp_re) :=
    match engine with
    | None => RegexOp_compile self None
    | Some e =>
        match re_cache e !! pattern self with
        | Some rx => (engine, ret rx)
        | None => RegexOp_compile self engine
        end
    end in
  (engine',
   rx ← tmp_re;
   result ← Regex_search rx data;
   if result is Some _ then ret (VBool true) else ret (VBool false)).

(** *** The logical operators *)

Section Loops.
(** [param.eval(data)] for the enclosing call's [data]. *)
Variable call : oid → Run value.

(** [AND.eval]'s loop. *)
Fixpoint AND_loop (params : list oid) : Run value :=
  match params with
  | [] => ret (VBool true)
  | param :: rest =>
      v ← call param;
      if negb (truthy v) then ret (VBool false) else AND_loop rest
  end.

(** [OR.eval]'s loop. *)
Fixpoint OR_loop (params : list oid) : Run value :=
  match params with
  | [] => ret (VBool false)
  | param :: rest =>
      v ← call param;
      if truthy v then ret (VBool true) else OR_loop rest
  end.

(** The loop shared by [NOT.eval] and [NOR.eval]. *)
Fixpoint NOR_loop (params : list oid) : Run value :=
  match params with
  | [] => ret (VBool true)
  | param :: rest =>
      v ← call param;
      if truthy v then ret (VBool false) else NOR_loop rest
  end.

(** [self.parameters[i].eval(data)]. *)
Definition call_at (params : list oid) (i : nat) : Run value :=
  match params !! i with
  | Some param => call param
  | None => raise IndexError
  end.

Definition NOT_eval (params : list oid) : Run value :=
  assert (bool_decide (length params < 2))
    "NOT only works with one or zero Operator parameters";;
  if bool_decide (0 < length params) then NOR_loop params
  else ret (VBool true).

(** [a and not b] in a condition: [b] is evaluated only when [a] is
    truthy. *)
Definition and_not (a b : Run value) : Run bool :=
  x ← a;
  if truthy x then y ← b; ret (negb (truthy y)) else ret false.

Definition XOR_eval (params : list oid) : Run value :=
  assert (bool_decide (length params = 2))
    "XOR only works with two Operator parameters";;
  c ← and_not (call_at params 0) (call_at params 1);
  if c : bool then ret (VBool true)
  else
    c' ← and_not (call_at params 1) (call_at params 0);
    if c' : bool then ret (VBool true) else ret (VBool false).

Definition NAND_eval (params : list oid) : Run value :=
  assert (bool_decide (length params = 2))
    "NAND only works with two Operator parameters";;
  x ← call_at params 0;
  c ← (if truthy x then y ← call_at params 1; ret (truthy y) else ret false);
  if c : bool then ret (VBool false) else ret (VBool true).

Definition NOR_eval (params : list oid) : Run value :=
  assert (bool_decide (2 ≤ length params)%nat)
    "NOR only works with two or more Operator parameters";;
  NOR_loop params.
End Loops.

(** [node.eval(data)], dispatched on the class of the object; [call] is
    the evaluation of another object on the same [data].  The logical
    operators call [param.eval(data)] with one argument, so a [RegexOp]
    below them is always evaluated with [engine=None]. *)
Definition dispatch (call : oid → Run value) (node : Node)
    (data : option string) : Run value :=
  match cls node with
  | Operator => ret VNone
  | AlwaysTrueOp => ret (VBool true)
  | AlwaysFalseOp => ret (VBool false)
  | RegexOp => (RegexOp_eval node data None).2
  | AND => AND_loop call (parameters node)
  | OR => OR_loop call (parameters node)
  | NOT => NOT_eval call (parameters node)
  | XOR => XOR_eval call (parameters node)
  | NAND => NAND_eval call (parameters node)
  | NOR => NOR_eval call (parameters node)
  end.

(** [self.eval(data)] on the object with id [self]. *)
Fixpoint eval (fuel : nat) (s : Store) (self : oid) (data : option string)
  : Run value :=
  match fuel with
  | 0 => ([], OutOfFuel)
  | S fuel' =>
      tell (Eval self);;
      match s !! self with
      | None => raise SQLObjectNotFound
      | Some node => dispatch (λ param, eval fuel' s param data) node data
      end
  end.
End Program.

(** ** Engine methods *)

(** The keyword arguments the program passes to an operator class. *)
Record Kwargs := {
  kw_name : option string;
  kw_pattern : option string;
  kw_case_sensitive : option bool
}.

(** Modelled from the spec: the constructors of the operator classes are
    generated by the object store and are not part of the program; this is
    the store's create(variant, fields).  [name] defaults to [None] and
    [case_sensitive] to [False] (the column defaults declared in the
    program); [pattern] is declared without a default, so a [RegexOp] needs
    it, and the other classes have no such columns. *)
Definition construct (optype : OpClass) (kw : Kwargs) : option Node :=
  let node p :=
    {| cls := optype; name := kw_name kw; parameters := []; pattern := p;
       case_sensitive := default false (kw_case_sensitive kw);
       connection := None |} in
  match optype, kw_pattern kw, kw_case_sensitive kw with
  | RegexOp, Some p, _ => Some (node p)
  | RegexOp, None, _ => None
  | _, None, None => Some (node "")
  | _, _, _ => None
  end.

(** Modelled from the spec: [Operator.selectBy(name=name)] is a query of
    the object store and is not part of the program; it is the store's
    lookup-by-name, which yields zero, one or many operators: here the ids
    of the operators of any class that carry the name, in id order. *)
Definition selectBy_name (s : Store) (nm : option string) : list oid :=
  filter (λ i, name <$> s !! i = Some nm) (seq 0 (length s)).

Section EngineMethods.
Context `{ReModule}.

Definition cache_regex (self : Engine) (pattern : string) (obj : option Regex)
  : Engine * Run unit :=
  match obj with
  | Some o => (re_cache_set self pattern o, ret tt)
  | None =>
      match re_compile pattern false with
      | (log, Return rx) => (re_cache_set self pattern rx, (log, Return tt))
      | (log, Raise e) => (self, (log, Raise e))
      | (log, OutOfFuel) => (self, (log, OutOfFuel))
      end
  end.

(** [Engine.new_op(optype, **kw)]; the new operator gets the next id of
    the store. *)
Definition new_op (self : Engine) (s : Store) (optype : option OpClass)
    (kw : Kwargs) : Engine * Store * Run oid :=
  match optype with
  | None => (self, s, raise (ValueError "Engine.new_op(): optype can't be None."))
  | Some c =>
      match construct c kw with
      | None => (self, s, raise TypeError)
      | Some node =>
          let op := length s in
          let s' := alter (set_connection (dbconnection self)) op (s ++ [node]) in
          match decide (c = RegexOp), kw_pattern kw with
          | left _, Some p =>
              let (self', r) := cache_regex self p None in
              (self', s', r;; ret op)
          | _, _ => (self, s', ret op)
          end
      end
  end.

(** [Engine.get_op(name)]. *)
Definition get_op (s : Store) (nm : option string) : Run oid :=
  let rs := selectBy_name s nm in
  assert (bool_decide (length rs = 1))
    "Operator.selectBy(name=name) should return only one result.";;
  match rs !! 0 with
  | Some op => ret op
  | None => raise IndexError
  end.
End EngineMethods.

(** ** A concrete [re] for literal patterns

    The patterns the program's own test script uses are plain words, one of
    them anchored with a leading caret.  On that fragment of the pattern
    language matching is prefix comparison, after folding ASCII letters to
    lower case when the pattern was compiled with [re.IGNORECASE].  Patterns
    that contain any other metacharacter are outside the fragment, and this
    instance refuses to compile them. *)

Definition ascii_lower (c : ascii) : ascii :=
  let n := nat_of_ascii c in
  if ((65 <=? n) && (n <=? 90))%nat then ascii_of_nat (n + 32) else c.

Fixpoint string_lower (s : string) : string :=
  match s with
  | EmptyString => EmptyString
  | String c s' => String (ascii_lower c) (string_lower s')
  end.

Fixpoint string_drop (n : nat) (s : string) : string :=
  match n, s with
  | 0, _ => s
  | S n', String _ s' => string_drop n' s'
  | S _, EmptyString => EmptyString
  end.

Definition is_meta (c : ascii) : bool :=
  existsb (Ascii.eqb c) (list_ascii_of_string ".^$*+?{}[]\|()").

Definition literal_body (p : string) : string :=
  match p with
  | String "^" lit => lit
  | _ => p
  end.

Definition literal_valid (p : string) : bool :=
  forallb (λ c, negb (is_meta c)) (list_ascii_of_string (literal_body p)).

Definition literal_match_at (r : Regex) (text : string) (pos : nat) : bool :=
  let fold s := if rx_ignorecase r then string_lower s else s in
  match rx_pattern r with
  | String "^" lit => (pos =? 0)%nat && String.prefix (fold lit) (fold text)
  | lit =>
      (pos <=? String.length text)%nat
      && String.prefix (fold lit) (fold (string_drop pos text))
  end.

Definition literal_re : ReModule :=
  {| re_valid := literal_valid; re_match_at := literal_match_at |}.


(** ** Vocabulary of the statements *)

(** A run that did not stop for lack of fuel. *)
Definition terminates {A} (m : Run A) : Prop := result_of m ≠ OutOfFuel.

(** [m'] does at least what [m] does: whenever [m] finishes, [m'] is the
    same run. *)
Definition extends {A} (m m' : Run A) : Prop := terminates m → m' = m.

(** A store is ranked when every operator has a rank above the ranks of
    its parameters: the store is a DAG.  On a ranked store [eval] is
    total, and the rank bounds the fuel it needs. *)
Definition ranked (s : Store) (rank : oid → nat) : Prop :=
  ∀ self node param,
    s !! self = Some node → param ∈ parameters node → rank param < rank self.

Section RegexDefs.
Context `{ReModule}.

(** The tail of [RegexOp.eval]: search [data] with the matcher [rx] and
    turn the match object into a boolean. *)
Definition search_with (rx : Regex) (data : option string) : Run value :=
  Regex_search rx data ≫= λ result,
    if result is Some _ then ret (VBool true) else ret (VBool false).

(** The matcher [RegexOp.compile] builds for an operator. *)
Definition own_matcher (self : Node) : Regex :=
  {| rx_pattern := pattern self;
     rx_ignorecase := negb (case_sensitive self) |}.

(** The pattern of [rx] matches somewhere in [text]. *)
Definition matches_somewhere (rx : Regex) (text : string) : Prop :=
  ∃ pos, pos ≤ String.length text ∧ re_match_at rx text pos = true.

(** The regex row of the evaluator's table, for one call. *)
Definition RegexOp_eval_search_spec (self : Node) (text : string)
    (engine : option Engine) : Prop :=
  result_of (RegexOp_eval self (Some text) engine).2 = Return (VBool true)
  ↔ re_valid (pattern self) = true
    ∧ matches_somewhere (own_matcher self) text.

Definition is_compile (ev : event) : bool :=
  match ev with
  | Compile _ _ => true
  | Eval _ => false
  end.

(** The compile-count hook: the calls of [re.compile] in a log. *)
Definition compile_count (log : list event) : nat :=
  length (List.filter is_compile log).

(** Evaluate [first] and then [second] on the same data with the same
    engine. *)
Definition eval_both (first second : Node) (data : option string)
    (e : Engine) : Run value * Run value :=
  let (e1, r1) := RegexOp_eval first data (Some e) in
  let (_, r2) := RegexOp_eval second data e1 in
  (r1, r2).

(** The cache-consistency property, for one pair of operators. *)
Definition cache_consistency_spec (first second : Node) (text : string)
    (e : Engine) : Prop :=
  pattern first = pattern second →
  let (r1, r2) := eval_both first second (Some text) e in
  compile_count (log_of r1 ++ log_of r2) = 1
  ∧ result_of r1 = result_of r2.
End RegexDefs.

(** Two operator objects with the same logical content: they may differ
    in [name] and [connection] only. *)
Definition same_logic (a b : Node) : Prop :=
  cls a = cls b ∧ parameters a = parameters b
  ∧ pattern a = pattern b ∧ case_sensitive a = case_sensitive b.

(** The one assertion of [Engine.get_op]. *)
Definition get_op_error : exn :=
  AssertionError "Operator.selectBy(name=name) should return only one result.".

(** The lookup contract with two error outcomes that can be told apart. *)
Definition get_op_spec (NotFoundError AmbiguousNameError : exn) : Prop :=
  NotFoundError ≠ AmbiguousNameError
  ∧ ∀ (s : list Node) (nm : option string),
      (∀ op, selectBy_name s nm = [op] →
         result_of (get_op s nm) = Return op)
      ∧ (selectBy_name s nm = [] →
         result_of (get_op s nm) = Raise NotFoundError)
      ∧ (1 < length (selectBy_name s nm) →
         result_of (get_op s nm) = Raise AmbiguousNameError).

(** ** The program's test script, replayed on the model *)

Module Script.
#[local] Existing Instance literal_re.

Definition op (c : OpClass) (params : list oid) : Node :=
  {| cls := c; name := None; parameters := params; pattern := "";
     case_sensitive := false; connection := None |}.

Definition regex (p : string) : Node :=
  {| cls := RegexOp; name := None; parameters := []; pattern := p;
     case_sensitive := false; connection := None |}.

Definition txt : string :=
  "ORDER, for the reasons set forth in the related Memoranda Opinions issued in this matter on 06/30/06 and 10/10/06, and for good cause, the final Markman definitions applicable to the disputed claim terms and phrases are as follows: (see Order for details). Signed by Judge T. S. Ellis III on 10/10/06. Copies mailed: yes (pmil) (Entered: 10/12/2006)".

Definition alt_data : string := "ORDER re: foobar and stuff".

(** The objects of the script, in creation order. *)
Definition test_true := 0.
Definition test_false := 1.
Definition test_and := 2.
Definition test_or := 3.
Definition test_and_2 := 4.
Definition starts_with_order := 5.
Definition contains_markman := 6.
Definition both := 7.
Definition not_matching := 8.
Definition false_and := 9.
Definition test_not := 10.
Definition test_xor := 11.
Definition test_xor2 := 12.
Definition test_nand1 := 13.
Definition test_nand2 := 14.

Definition objects : Store :=
  [ op AlwaysTrueOp []; op AlwaysFalseOp [];
    op AND [test_true; test_false]; op OR [test_true; test_false];
    op AND [test_and; test_or];
    regex "^ORDER"; regex "markman";
    op AND [starts_with_order; contains_markman];
    regex "foobar";
    op AND [starts_with_order; not_matching];
    op NOT [test_true];
    op XOR [test_false; test_true]; op XOR [test_true; test_true];
    op NAND [test_true; test_true]; op NAND [test_true; test_false] ].

Definition run (self : oid) (data : option string) : outcome value :=
  result_of (eval 5 objects self data).
End Script.

(** A store with an object of the base class under an [AND] and an [OR]. *)
Module Abstract.
Definition base := 0.
Definition yes := 1.
Definition no := 2.
Definition all := 3.
Definition any := 4.

Definition objects : Store :=
  [ Script.op Operator []; Script.op AlwaysTrueOp [];
    Script.op AlwaysFalseOp [];
    Script.op AND [yes; base; no]; Script.op OR [no; base; yes] ].
End Abstract.

(** Parents whose result hangs on what the base operator returns: an
    [AND] with nothing but truthy parameters around it, an [OR] with
    nothing but falsy ones, and an [OR] with a truthy parameter further
    on. *)
Module Reached.
Definition base := 0.
Definition yes := 1.
Definition no := 2.
Definition both := 3.
Definition neither := 4.
Definition later := 5.

Definition objects : Store :=
  [ Script.op Operator []; Script.op AlwaysTrueOp [];
    Script.op AlwaysFalseOp [];
    Script.op AND [yes; base; yes]; Script.op OR [no; base; no];
    Script.op OR [no; base; no; yes] ].
End Reached.

(** An engine whose cache was filled by [Engine.new_op]: the script's
    [contains_markman], built through the engine instead. *)
Module Prewarmed.
Definition kw : Kwargs :=
  {| kw_name := None; kw_pattern := Some "markman";
     kw_case_sensitive := None |}.

Definition built : Engine * list Node * Run oid :=
  new_op (H:=literal_re) (Engine_init 0) [] (Some RegexOp) kw.

Definition engine : Engine := built.1.1.
Definition contains_markman : Node := Script.regex "markman".
Definition text : string := "the final Markman definitions".
End Prewarmed.

(** A second operator with the pattern of [Prewarmed.contains_markman]. *)
Definition also_markman : Node :=
  {| cls := RegexOp; name := Some "also"; parameters := [];
     pattern := "markman"; case_sensitive := true; connection := None |}.

(** An operator that carries a name. *)
Definition named (nm : string) : Node :=
  {| cls := AlwaysTrueOp; name := Some nm; parameters := []; pattern := "";
     case_sensitive := false; connection := None |}.

(** ** Building rules: [Engine.compound_regex_rule]

    The builder creates operators and links them, so it changes both the
    engine (through [new_op]'s cache warming) and the object store.  A
    command threads the two; an exception stops it and keeps what was done
    up to there. *)

Definition Cmd (A : Type) : Type :=
  Engine * list Node → Engine * list Node * Run A.

Definition cmd_ret {A} (a : A) : Cmd A := λ w, (w, ret a).

Definition cmd_raise {A} (e : exn) : Cmd A := λ w, (w, raise e).

Definition cmd_bind {A B} (m : Cmd A) (k : A → Cmd B) : Cmd B :=
  λ w,
    match m w with
    | (w1, (log, Return a)) =>
        let '(w2, (log', r)) := k a w1 in (w2, (log ++ log', r))
    | (w1, (log, Raise e)) => (w1, (log, Raise e))
    | (w1, (log, OutOfFuel)) => (w1, (log, OutOfFuel))
    end.

(** [root.addParameter(rule)] as a command. *)
Definition addParameter_cmd (self param : oid) : Cmd unit :=
  λ '(engine, s), let (s', r) := addParameter s self param in ((engine, s'), r).

Section Builder.
Context `{ReModule}.

(** [self.new_op(optype, **kw)] as a command. *)
Definition new_op_cmd (optype : option OpClass) (kw : Kwargs) : Cmd oid :=
  λ '(self, s),
    let '(self', s', r) := new_op self s optype kw in ((self', s'), r).

(** The loop of [compound_regex_rule]. *)
Fixpoint add_rules (root : oid) (patterns : list string) : Cmd unit :=
  match patterns with
  | [] => cmd_ret tt
  | pattern :: rest =>
      cmd_bind
        (new_op_cmd (Some RegexOp)
           {| kw_name := None; kw_pattern := Some pattern;
              kw_case_sensitive := None |})
        (λ rule,
           cmd_bind (addParameter_cmd root rule) (λ _, add_rules root rest))
  end.

(** [Engine.compound_regex_rule(ruletype, patterns, name)].  [patterns]
    defaults to [None], and a [for] over [None] is a [TypeError]. *)
Definition compound_regex_rule (ruletype : option OpClass)
    (patterns : option (list string)) (name : option string) : Cmd oid :=
  cmd_bind
    (new_op_cmd ruletype
       {| kw_name := name; kw_pattern := None; kw_case_sensitive := None |})
    (λ root,
       cmd_bind
         (match patterns with
          | None => cmd_raise TypeError
          | Some ps => add_rules root ps
          end)
         (λ _, cmd_ret root)).

(** [re.compile(p, flags).search(text)] as a truth value. *)
Definition found (rx : Regex) (text : string) : bool :=
  if find (re_match_at rx text) (seq 0 (S (String.length text))) is Some _
  then true else false.
End Builder.

(** The run of [not m]: the same log, the truth value negated. *)
Definition negated (m : Run value) : Run value :=
  (log_of m,
   match result_of m with
   | Return v => Return (VBool (negb (truthy v)))
   | Raise e => Raise e
   | OutOfFuel => OutOfFuel
   end).

(** Each parameter of [params], called in order, returns: [runs] lists
    the logs and the values. *)
Definition all_return (call : oid → Run value) (params : list oid)
    (runs : list (list event * value)) : Prop :=
  Forall2 (λ p r, call p = (r.1, Return r.2)) params runs.

(** The operator [new_op] makes for a class and keyword arguments, with
    the engine's connection set on it. *)
Definition made (self : Engine) (node : Node) : Node :=
  set_connection (dbconnection self) node.

(** The [RegexOp] that [compound_regex_rule] makes for a pattern. *)
Definition rule_for (self : Engine) (p : string) : Node :=
  {| cls := RegexOp; name := None; parameters := []; pattern := p;
     case_sensitive := false; connection := dbconnection self |}.

(** The engine [self] with its cache replaced. *)
Definition with_cache (self : Engine) (cache : gmap string Regex) : Engine :=
  {| debuglevel := debuglevel self; dbconnection := dbconnection self;
     re_cache := cache |}.

(** The root operator [compound_regex_rule] leaves in the store. *)
Definition root_for (self : Engine) (c : OpClass) (nm : option string)
    (params : list oid) : Node :=
  {| cls := c; name := nm; parameters := params; pattern := "";
     case_sensitive := false; connection := dbconnection self |}.

(** The cache after [cache_regex] was called for each pattern in turn. *)
Definition warmed (cache : gmap string Regex) (patterns : list string)
  : gmap string Regex :=
  foldl (λ c p, <[p := {| rx_pattern := p; rx_ignorecase := false |}]> c)
    cache patterns.

(** A store in which the same operands sit under a [NAND], under an [AND]
    with a [NOT] above it, under a [NOR], and under an [OR] with a [NOT]
    above it. *)
Module Compose.
Definition yes := 0.
Definition no := 1.
Definition nand := 2.
Definition and := 3.
Definition not_and := 4.
Definition nor := 5.
Definition or := 6.
Definition not_or := 7.

Definition objects : list Node :=
  [ Script.op AlwaysTrueOp []; Script.op AlwaysFalseOp [];
    Script.op NAND [yes; no]; Script.op AND [yes; no];
    Script.op NOT [and];
    Script.op NOR [no; no; yes; no]; Script.op OR [no; no; yes; no];
    Script.op NOT [or] ].
End Compose.

(** An [OR] rule over two patterns, built by the engine. *)
Module Built.
Definition patterns : list string := ["markman"; "foobar"].

Definition run : Engine * list Node * Run oid :=
  compound_regex_rule (H:=literal_re) (Some OR) (Some patterns) (Some "rule")
    (Engine_init 0, []).

Definition engine : Engine := run.1.1.
Definition objects : list Node := run.1.2.
End Built.

(** ** [Operator.dump]

    [dump] prints one line per operator, depth first, each level indented
    by [DUMP_INDENT_SPACING] more of [DUMP_INDENT_CHAR].  The printed
    lines are the output of the run. *)

Definition DUMP_INDENT_SPACING : nat := 2.
Definition DUMP_INDENT_CHAR : string := " ".

(** [sqlmeta.table] of each class. *)
Definition table (c : OpClass) : string :=
  match c with
  | Operator => "pyple_operator"
  | AlwaysTrueOp => "pyple_op_always_true"
  | AlwaysFalseOp => "pyple_op_always_false"
  | RegexOp => "pyple_op_regex"
  | AND => "pyple_op_and"
  | OR => "pyple_op_or"
  | NOT => "pyple_op_not"
  | XOR => "pyple_op_xor"
  | NAND => "pyple_op_nand"
  | NOR => "pyple_op_nor"
  end.

(** The string of one double quote. *)
Definition dquote : string := String (ascii_of_nat 34) EmptyString.

(** Python's [text * n] and [sep.join(items)]. *)
Fixpoint str_mul (text : string) (n : nat) : string :=
  match n with
  | 0 => EmptyString
  | S n' => String.append text (str_mul text n')
  end.

Fixpoint join (sep : string) (items : list string) : string :=
  match items with
  | [] => EmptyString
  | [item] => item
  | item :: rest => String.append item (String.append sep (join sep rest))
  end.

Definition details (node : Node) : list string :=
  (if name node is Some nm
   then [String.append "name=" (String.append dquote (String.append nm dquote))]
   else [])
  ++ (if decide (cls node = RegexOp)
      then [String.append "pattern="
              (String.append dquote (String.append (pattern node) dquote))]
      else []).

(** The line [dump] prints for the operator [node] with id [self]; the id
    printed is the one the operator has in the store. *)
Definition dump_line (node : Node) (self : oid) (indent : nat) : string :=
  String.append (str_mul (str_mul DUMP_INDENT_CHAR DUMP_INDENT_SPACING) indent)
    (String.append "+ "
       (String.append (table (cls node))
          (String.append " ("
             (String.append (join ", " (details node))
                (String.append ") #" (pretty self)))))).

(** A run that prints: the lines and the outcome. *)
Definition Printed (A : Type) : Type := list string * outcome A.

Definition print_bind {A B} (m : Printed A) (k : A → Printed B) : Printed B :=
  match m with
  | (out, Return a) => let (out', r) := k a in (out ++ out', r)
  | (out, Raise e) => (out, Raise e)
  | (out, OutOfFuel) => (out, OutOfFuel)
  end.

(** [for p in self.parameters: p.dump(indent+1)]. *)
Fixpoint dump_loop (call : oid → Printed unit) (params : list oid)
  : Printed unit :=
  match params with
  | [] => ([], Return tt)
  | p :: rest => print_bind (call p) (λ _, dump_loop call rest)
  end.

(** [self.dump(indent)]. *)
Fixpoint dump (fuel : nat) (s : list Node) (self : oid) (indent : nat)
  : Printed unit :=
  match fuel with
  | 0 => ([], OutOfFuel)
  | S fuel' =>
      match s !! self with
      | None => ([], Raise SQLObjectNotFound)
      | Some node =>
          print_bind ([dump_line node self indent], Return tt)
            (λ _, dump_loop (λ p, dump fuel' s p (indent + 1))
                    (parameters node))
      end
  end.

(** The output of a run with every line prefixed. *)
Definition shifted {A} (prefix : string) (m : Printed A) : Printed A :=
  (String.append prefix <$> m.1, m.2).

(** ** The test script's assertions *)

Example script_constants :
  Script.run Script.test_true None = Return (VBool true)
  ∧ Script.run Script.test_false None = Return (VBool false).
Proof. split; reflexivity. Qed.

Example script_logic :
  Script.run Script.test_and None = Return (VBool false)
  ∧ Script.run Script.test_or None = Return (VBool true)
  ∧ Script.run Script.test_and_2 None = Return (VBool false)
  ∧ Script.run Script.test_not None = Return (VBool false)
  ∧ Script.run Script.test_xor None = Return (VBool true)
  ∧ Script.run Script.test_xor2 None = Return (VBool false)
  ∧ Script.run Script.test_nand1 None = Return (VBool false)
  ∧ Script.run Script.test_nand2 None = Return (VBool true).
Proof. repeat split; reflexivity. Qed.

Example script_regex :
  Script.run Script.starts_with_order (Some Script.txt) = Return (VBool true)
  ∧ Script.run Script.contains_markman (Some Script.txt) = Return (VBool true)
  ∧ Script.run Script.both (Some Script.txt) = Return (VBool true)
  ∧ Script.run Script.not_matching (Some Script.txt) = Return (VBool false)
  ∧ Script.run Script.false_and (Some Script.txt) = Return (VBool false)
  ∧ Script.run Script.false_and (Some Script.alt_data) = Return (VBool true).
Proof. repeat split; vm_compute; reflexivity. Qed.

(** ** Runs: basic facts *)


Lemma bind_terminates {A B} (m : Run A) (k : A → Run B) :
  terminates m → (∀ a, terminates (k a)) → terminates (m ≫= k).
Proof.
  destruct m as [log [a| |]]; unfold terminates; simpl; intros Hm Hk; try done.
  specialize (Hk a). by destruct (k a).
Qed.

Lemma bind_extends {A B} (m m' : Run A) (k k' : A → Run B) :
  extends m m' → (∀ a, extends (k a) (k' a)) → extends (m ≫= k) (m' ≫= k').
Proof.
  intros Hm Hk Hfin. destruct m as [log [a| |]].
  - rewrite Hm by done. change (bind (log, Return a) k' = bind (log, Return a) k).
    change (terminates (bind (log, Return a) k)) in Hfin.
    unfold bind in *. rewrite (Hk a); [done|].
    unfold terminates, result_of in *. by destruct (k a).
  - by rewrite Hm.
  - by destruct Hfin.
Qed.

Lemma extends_refl {A} (m : Run A) : extends m m.
Proof. by intros _. Qed.

Lemma ret_terminates {A} (a : A) : terminates (ret a).
Proof. done. Qed.

Lemma raise_terminates {A} (e : exn) : terminates (@raise A e).
Proof. done. Qed.

Lemma assert_terminates c msg : terminates (assert c msg).
Proof. by destruct c. Qed.

Create HintDb runs.
#[export] Hint Resolve ret_terminates raise_terminates assert_terminates
  extends_refl : runs.

Section LoopFacts.
Context `{ReModule}.
Variables call call' : oid → Run value.

Ltac step_term :=
  repeat first
    [ apply bind_terminates; [ | intros ? ]
    | match goal with |- terminates (if ?c then _ else _) => destruct c end
    | match goal with |- terminates (match ?c with _ => _ end) => destruct c end
    | solve [ eauto with runs ] ].

Ltac step_ext :=
  repeat first
    [ apply bind_extends; [ | intros ? ]
    | match goal with |- extends (if ?c then _ else _) _ => destruct c end
    | solve [ eauto with runs ] ].

Lemma AND_loop_terminates params :
  (∀ p, p ∈ params → terminates (call p)) → terminates (AND_loop call params).
Proof.
  induction params as [|p rest IH]; intros Hc; simpl; [done|].
  apply bind_terminates; [apply Hc; left|].
  intros v. destruct (negb (truthy v)); [done|].
  apply IH. intros q Hq. apply Hc. by right.
Qed.

Lemma OR_loop_terminates params :
  (∀ p, p ∈ params → terminates (call p)) → terminates (OR_loop call params).
Proof.
  induction params as [|p rest IH]; intros Hc; simpl; [done|].
  apply bind_terminates; [apply Hc; left|].
  intros v. destruct (truthy v); [done|].
  apply IH. intros q Hq. apply Hc. by right.
Qed.

Lemma NOR_loop_terminates params :
  (∀ p, p ∈ params → terminates (call p)) → terminates (NOR_loop call params).
Proof.
  induction params as [|p rest IH]; intros Hc; simpl; [done|].
  apply bind_terminates; [apply Hc; left|].
  intros v. destruct (truthy v); [done|].
  apply IH. intros q Hq. apply Hc. by right.
Qed.

Lemma call_at_terminates params i :
  (∀ p, p ∈ params → terminates (call p)) → terminates (call_at call params i).
Proof.
  intros Hc. unfold call_at. destruct (params !! i) as [p|] eqn:Hp; [|done].
  apply Hc. by eapply list_elem_of_lookup_2.
Qed.

Lemma and_not_terminates (a b : Run value) :
  terminates a → terminates b → terminates (and_not a b).
Proof. intros Ha Hb. unfold and_not. step_term. Qed.

Lemma AND_loop_extends params :
  (∀ p, extends (call p) (call' p)) →
  extends (AND_loop call params) (AND_loop call' params).
Proof.
  intros Hc. induction params as [|p rest IH]; simpl; [apply extends_refl|].
  apply bind_extends; [done|]. intros v. by destruct (negb (truthy v)).
Qed.

Lemma OR_loop_extends params :
  (∀ p, extends (call p) (call' p)) →
  extends (OR_loop call params) (OR_loop call' params).
Proof.
  intros Hc. induction params as [|p rest IH]; simpl; [apply extends_refl|].
  apply bind_extends; [done|]. intros v. by destruct (truthy v).
Qed.

Lemma NOR_loop_extends params :
  (∀ p, extends (call p) (call' p)) →
  extends (NOR_loop call params) (NOR_loop call' params).
Proof.
  intros Hc. induction params as [|p rest IH]; simpl; [apply extends_refl|].
  apply bind_extends; [done|]. intros v. by destruct (truthy v).
Qed.

Lemma call_at_extends params i :
  (∀ p, extends (call p) (call' p)) →
  extends (call_at call params i) (call_at call' params i).
Proof. intros Hc. unfold call_at. destruct (params !! i); eauto with runs. Qed.

Lemma and_not_extends (a a' b b' : Run value) :
  extends a a' → extends b b' → extends (and_not a b) (and_not a' b').
Proof. intros Ha Hb. unfold and_not. step_ext. Qed.
End LoopFacts.

(** ** [eval]: fuel *)

Section EvalFuel.
Context `{ReModule}.

Lemma eval_S n s self data :
  eval (S n) s self data =
  tell (Eval self) ≫= λ _,
    match s !! self with
    | None => raise SQLObjectNotFound
    | Some node => dispatch (λ param, eval n s param data) node data
    end.
Proof. reflexivity. Qed.

Lemma re_compile_terminates p ic : terminates (re_compile p ic).
Proof.
  unfold re_compile. apply bind_terminates; [done|]. intros _.
  by destruct (re_valid p).
Qed.

Lemma RegexOp_compile_terminates node engine :
  terminates (RegexOp_compile node engine).2.
Proof.
  unfold RegexOp_compile.
  pose proof (re_compile_terminates (pattern node) false).
  pose proof (re_compile_terminates (pattern node) true).
  destruct (case_sensitive node);
    by match goal with
       | |- context [match ?r with _ => _ end] => destruct r as [? [?| |]]
       end.
Qed.

Lemma Regex_search_terminates rx data : terminates (Regex_search rx data).
Proof. by destruct data. Qed.

Lemma RegexOp_eval_terminates node data engine :
  terminates (RegexOp_eval node data engine).2.
Proof.
  unfold RegexOp_eval.
  pose proof (RegexOp_compile_terminates node engine).
  pose proof (RegexOp_compile_terminates node None).
  assert (∀ rx, terminates
    (Regex_search rx data ≫= λ result,
       if result is Some _ then ret (VBool true) else ret (VBool false))).
  { intros rx. apply bind_terminates; [apply Regex_search_terminates|].
    by intros [?|]. }
  destruct engine as [e|]; [destruct (re_cache e !! pattern node)|].
  - by apply bind_terminates.
  - destruct (RegexOp_compile node (Some e)). by apply bind_terminates.
  - destruct (RegexOp_compile node None). by apply bind_terminates.
Qed.

Lemma dispatch_extends call call' node data :
  (∀ p, extends (call p) (call' p)) →
  extends (dispatch call node data) (dispatch call' node data).
Proof.
  intros Hc. unfold dispatch. destruct (cls node); try apply extends_refl.
  - by apply AND_loop_extends.
  - by apply OR_loop_extends.
  - unfold NOT_eval. apply bind_extends; [apply extends_refl|]. intros _.
    destruct (bool_decide _); [|apply extends_refl]. by apply NOR_loop_extends.
  - unfold XOR_eval. apply bind_extends; [apply extends_refl|]. intros _.
    apply bind_extends;
      [apply and_not_extends; by apply call_at_extends|].
    intros [|]; [apply extends_refl|].
    apply bind_extends;
      [apply and_not_extends; by apply call_at_extends|].
    intros [|]; apply extends_refl.
  - unfold NAND_eval. apply bind_extends; [apply extends_refl|]. intros _.
    apply bind_extends; [by apply call_at_extends|]. intros v.
    apply bind_extends; [|intros [|]; apply extends_refl].
    destruct (truthy v); [|apply extends_refl].
    apply bind_extends; [by apply call_at_extends|].
    intros ?; apply extends_refl.
  - unfold NOR_eval. apply bind_extends; [apply extends_refl|]. intros _.
    by apply NOR_loop_extends.
Qed.

Lemma dispatch_terminates call node data :
  (∀ p, p ∈ parameters node → terminates (call p)) →
  terminates (dispatch call node data).
Proof.
  intros Hc. unfold dispatch. destruct (cls node); try done.
  - apply RegexOp_eval_terminates.
  - by apply AND_loop_terminates.
  - by apply OR_loop_terminates.
  - unfold NOT_eval. apply bind_terminates; [apply assert_terminates|].
    intros _. destruct (bool_decide _); [|done]. by apply NOR_loop_terminates.
  - unfold XOR_eval. apply bind_terminates; [apply assert_terminates|].
    intros _. apply bind_terminates;
      [apply and_not_terminates; by apply call_at_terminates|].
    intros [|]; [done|].
    apply bind_terminates;
      [apply and_not_terminates; by apply call_at_terminates|].
    by intros [|].
  - unfold NAND_eval. apply bind_terminates; [apply assert_terminates|].
    intros _. apply bind_terminates; [by apply call_at_terminates|].
    intros v. apply bind_terminates; [|by intros [|]].
    destruct (truthy v); [|done].
    apply bind_terminates; [by apply call_at_terminates|done].
  - unfold NOR_eval. apply bind_terminates; [apply assert_terminates|].
    intros _. by apply NOR_loop_terminates.
Qed.

(** A run of [eval] that finishes is the same with more fuel. *)
Lemma eval_fuel_S n s self data :
  extends (eval n s self data) (eval (S n) s self data).
Proof.
  revert self. induction n as [|n IH]; intros self; [by intros []|].
  rewrite (eval_S (S n)), (eval_S n).
  apply bind_extends; [apply extends_refl|]. intros _.
  destruct (s !! self) as [node|]; [|apply extends_refl].
  by apply dispatch_extends.
Qed.

Lemma eval_fuel_mono n m s self data :
  n ≤ m → extends (eval n s self data) (eval m s self data).
Proof.
  induction 1 as [|m Hle IH]; [apply extends_refl|].
  intros Hfin. rewrite <- (IH Hfin). apply eval_fuel_S. by rewrite (IH Hfin).
Qed.

(** Two finished runs of the same call are the same run, whatever fuel
    each was given. *)
Lemma eval_fuel_irrelevant n m s self data :
  terminates (eval n s self data) → terminates (eval m s self data) →
  eval n s self data = eval m s self data.
Proof.
  intros Hn Hm. destruct (Nat.le_ge_cases n m) as [Hle|Hle].
  - symmetry. by apply (eval_fuel_mono n m).
  - by apply (eval_fuel_mono m n).
Qed.


Lemma eval_terminates s rank n self data :
  ranked s rank → rank self < n → terminates (eval n s self data).
Proof.
  intros Hr. revert self. induction n as [|n IH]; intros self Hlt; [lia|].
  rewrite eval_S. apply bind_terminates; [done|]. intros _.
  destruct (s !! self) as [node|] eqn:Hnode; [|done].
  apply dispatch_terminates. intros p Hp. apply IH.
  specialize (Hr self node p Hnode Hp). lia.
Qed.

(** Every finished run of [eval] starts by logging its own call. *)
Lemma eval_logs_call n s self data :
  terminates (eval n s self data) → Eval self ∈ log_of (eval n s self data).
Proof.
  destruct n as [|n]; [by intros []|]. intros _. rewrite eval_S.
  change (Eval self ∈ log_of (bind (tell (Eval self)) (λ _,
    match s !! self with
    | None => raise SQLObjectNotFound
    | Some node => dispatch (λ param, eval n s param data) node data
    end))).
  unfold bind, tell.
  match goal with |- context [let (_, _) := ?x in _] => destruct x end.
  unfold log_of. simpl. left.
Qed.
End EvalFuel.

(** ** [eval] reads the logical content of the store only *)

Section SameLogic.
Context `{ReModule}.

Section Congruence.
Variables call call' : oid → Run value.
Hypothesis call_eq : ∀ p, call p = call' p.

Lemma AND_loop_ext params : AND_loop call params = AND_loop call' params.
Proof. induction params as [|p rest IH]; simpl; [done|]. by rewrite call_eq, IH. Qed.

Lemma OR_loop_ext params : OR_loop call params = OR_loop call' params.
Proof. induction params as [|p rest IH]; simpl; [done|]. by rewrite call_eq, IH. Qed.

Lemma NOR_loop_ext params : NOR_loop call params = NOR_loop call' params.
Proof. induction params as [|p rest IH]; simpl; [done|]. by rewrite call_eq, IH. Qed.

Lemma call_at_ext params i : call_at call params i = call_at call' params i.
Proof. unfold call_at. by destruct (params !! i). Qed.

Lemma dispatch_ext a b data :
  same_logic a b → dispatch call a data = dispatch call' b data.
Proof.
  intros (Hcls & Hps & Hpat & Hcs). unfold dispatch. rewrite <- Hcls, <- Hps.
  destruct (cls a); try done.
  - unfold RegexOp_eval, RegexOp_compile. by rewrite Hpat, Hcs.
  - apply AND_loop_ext.
  - apply OR_loop_ext.
  - unfold NOT_eval. by rewrite NOR_loop_ext.
  - unfold XOR_eval. by rewrite !call_at_ext.
  - unfold NAND_eval. by rewrite !call_at_ext.
  - unfold NOR_eval. by rewrite NOR_loop_ext.
Qed.
End Congruence.

Lemma eval_same_logic n (s1 s2 : list Node) self data :
  Forall2 same_logic s1 s2 → eval n s1 self data = eval n s2 self data.
Proof.
  intros Hs. revert self. induction n as [|n IH]; intros self; [done|].
  rewrite !eval_S.
  destruct (s1 !! self) as [a|] eqn:Ha.
  - destruct (Forall2_lookup_l _ _ _ _ _ Hs Ha) as (b & -> & Hab).
    by rewrite (dispatch_ext _ (λ p, eval n s2 p data)
                  (λ p, IH p) a b data Hab).
  - apply lookup_ge_None in Ha. apply Forall2_length in Hs.
    assert (Hb : s2 !! self = None) by (apply lookup_ge_None; lia).
    by rewrite Hb.
Qed.
End SameLogic.

(** ** The arity-checked operators *)

Section Arity.
Context `{ReModule}.
Variable call : oid → Run value.

Lemma XOR_eval_arity params :
  length params ≠ 2 →
  XOR_eval call params
  = raise (AssertionError "XOR only works with two Operator parameters").
Proof. intros Hlen. unfold XOR_eval. by rewrite bool_decide_eq_false_2. Qed.

(** With two parameters that both return, [XOR.eval] calls the first, then
    the second, possibly calls them again, and returns their exclusive
    or. *)
Lemma XOR_eval_two c0 c1 t0 t1 v0 v1 :
  call c0 = (t0, Return v0) → call c1 = (t1, Return v1) →
  ∃ t, XOR_eval call [c0; c1]
       = (t0 ++ t1 ++ t, Return (VBool (xorb (truthy v0) (truthy v1)))).
Proof.
  intros H0 H1. unfold XOR_eval, and_not, call_at. simpl.
  rewrite H0, H1. simpl.
  destruct (truthy v0) eqn:E0, (truthy v1) eqn:E1; simpl;
    rewrite ?H0, ?H1; simpl; rewrite ?E0, ?E1; simpl;
    rewrite ?app_nil_r, <- ?app_assoc.
  - by exists (t1 ++ t0).
  - exists []. by rewrite app_nil_r.
  - by exists t0.
  - exists []. by rewrite app_nil_r.
Qed.

Lemma XOR_eval_first_raises c0 c1 t0 e :
  call c0 = (t0, Raise e) → XOR_eval call [c0; c1] = (t0, Raise e).
Proof. intros H0. unfold XOR_eval, and_not, call_at. simpl. by rewrite H0. Qed.

Lemma XOR_eval_second_raises c0 c1 t0 t1 v0 e :
  call c0 = (t0, Return v0) → call c1 = (t1, Raise e) →
  XOR_eval call [c0; c1] = (t0 ++ t1, Raise e).
Proof.
  intros H0 H1. unfold XOR_eval, and_not, call_at. simpl.
  rewrite H0. simpl. destruct (truthy v0); simpl; rewrite H1; simpl;
    by rewrite ?app_nil_r.
Qed.

Lemma NOT_eval_arity params :
  1 < length params →
  NOT_eval call params
  = raise (AssertionError "NOT only works with one or zero Operator parameters").
Proof.
  intros Hlen. unfold NOT_eval. rewrite (bool_decide_eq_false_2 (length params < 2)) by lia. done.
Qed.

Lemma NOT_eval_none : NOT_eval call [] = ret (VBool true).
Proof. reflexivity. Qed.

Lemma NOT_eval_one c t v :
  call c = (t, Return v) →
  NOT_eval call [c] = (t, Return (VBool (negb (truthy v)))).
Proof.
  intros Hc. unfold NOT_eval. simpl. rewrite Hc. simpl.
  destruct (truthy v); simpl; by rewrite app_nil_r.
Qed.

Lemma NOT_eval_one_raises c t e :
  call c = (t, Raise e) → NOT_eval call [c] = (t, Raise e).
Proof. intros Hc. unfold NOT_eval. simpl. by rewrite Hc. Qed.
End Arity.

(** ** Runs of [eval] on one operator *)

Lemma tell_bind {A} ev (m : Run A) :
  (tell ev ≫= λ _, m) = (ev :: log_of m, result_of m).
Proof. by destruct m. Qed.

Lemma result_bind_Return {A B} log (a : A) (k : A → Run B) :
  result_of ((log, Return a) ≫= k) = result_of (k a).
Proof.
  change (result_of (bind (log, Return a) k) = result_of (k a)).
  unfold bind. by destruct (k a).
Qed.

Lemma bind_Return {A B} log (a : A) (k : A → Run B) :
  ((log, Return a) ≫= k) = (log ++ log_of (k a), result_of (k a)).
Proof.
  change (bind (log, Return a) k = (log ++ log_of (k a), result_of (k a))).
  unfold bind. by destruct (k a).
Qed.

Lemma ret_bind {A B} (a : A) (k : A → Run B) : (ret a ≫= k) = k a.
Proof. unfold ret. rewrite bind_Return. by destruct (k a). Qed.

Section OperatorClaims.
Context `{ReModule}.

Lemma eval_node n s self node data :
  s !! self = Some node →
  eval (S n) s self data
  = (Eval self :: log_of (dispatch (λ p, eval n s p data) node data),
     result_of (dispatch (λ p, eval n s p data) node data)).
Proof. intros Hnode. by rewrite eval_S, Hnode, tell_bind. Qed.

(** C4.  [XOR.eval]: an [XOR] operator whose parameter count is not two
    fails its arity assertion; with two parameters that return, it
    returns true exactly when one of the two values is truthy and the
    other is not, and the log shows the call of the first parameter
    followed by the call of the second, so neither is skipped; an
    exception raised by either parameter is raised by the [XOR]. *)
Theorem XOR_eval_spec n s self node data :
  s !! self = Some node → cls node = XOR →
  (length (parameters node) ≠ 2 →
     eval (S n) s self data
     = ([Eval self],
        Raise (AssertionError "XOR only works with two Operator parameters")))
  ∧ (∀ c0 c1 t0 t1 v0 v1,
       parameters node = [c0; c1] →
       eval n s c0 data = (t0, Return v0) →
       eval n s c1 data = (t1, Return v1) →
       ∃ t, eval (S n) s self data
            = (Eval self :: t0 ++ t1 ++ t,
               Return (VBool (xorb (truthy v0) (truthy v1))))
            ∧ Eval c0 ∈ t0 ∧ Eval c1 ∈ t1)
  ∧ (∀ c0 c1 t0 e,
       parameters node = [c0; c1] →
       eval n s c0 data = (t0, Raise e) →
       result_of (eval (S n) s self data) = Raise e)
  ∧ (∀ c0 c1 t0 t1 v0 e,
       parameters node = [c0; c1] →
       eval n s c0 data = (t0, Return v0) →
       eval n s c1 data = (t1, Raise e) →
       result_of (eval (S n) s self data) = Raise e).
Proof.
  intros Hnode Hcls. rewrite (eval_node _ _ _ _ _ Hnode).
  unfold dispatch. rewrite Hcls. repeat split.
  - intros Hlen. by rewrite XOR_eval_arity.
  - intros c0 c1 t0 t1 v0 v1 -> H0 H1.
    destruct (XOR_eval_two (λ p, eval n s p data) _ _ _ _ _ _ H0 H1) as [t ->]. exists t.
    pose proof (eval_logs_call n s c0 data) as L0.
    pose proof (eval_logs_call n s c1 data) as L1.
    rewrite H0 in L0. rewrite H1 in L1.
    split; [done|]. split; [by apply L0|by apply L1].
  - intros c0 c1 t0 e -> H0. by rewrite (XOR_eval_first_raises (λ p, eval n s p data) _ _ _ _ H0).
  - intros c0 c1 t0 t1 v0 e -> H0 H1.
    by rewrite (XOR_eval_second_raises (λ p, eval n s p data) _ _ _ _ _ _ H0 H1).
Qed.

(** C5.  [NOT.eval]: a [NOT] operator with more than one parameter fails
    its arity assertion; with none it returns true; with exactly one it
    returns true exactly when the value its parameter returns is not
    truthy. *)
Theorem NOT_eval_spec n s self node data :
  s !! self = Some node → cls node = NOT →
  (1 < length (parameters node) →
     eval (S n) s self data
     = ([Eval self],
        Raise (AssertionError
                 "NOT only works with one or zero Operator parameters")))
  ∧ (parameters node = [] →
       eval (S n) s self data = ([Eval self], Return (VBool true)))
  ∧ (∀ c t v,
       parameters node = [c] →
       eval n s c data = (t, Return v) →
       eval (S n) s self data
       = (Eval self :: t, Return (VBool (negb (truthy v))))).
Proof.
  intros Hnode Hcls. rewrite (eval_node _ _ _ _ _ Hnode).
  unfold dispatch. rewrite Hcls. repeat split.
  - intros Hlen. by rewrite NOT_eval_arity.
  - by intros ->.
  - intros c t v -> Hc. by rewrite (NOT_eval_one (λ p, eval n s p data) _ _ _ Hc).
Qed.

End OperatorClaims.

(** C3.  [addParameter] raises its [ValueError] (the self-reference error)
    exactly when the parameter is the operator itself, and then the store,
    and with it the operator's parameters, is unchanged; otherwise it
    returns, the parameter is the new last element of the operator's
    parameters, and nothing else in the store changes. *)
Theorem addParameter_spec (s : Store) (self param : oid) (node : Node) :
  s !! self = Some node →
  (result_of (addParameter s self param).2
   = Raise (ValueError "A rule cannot contain itself as a sub-rule!")
   ↔ param = self)
  ∧ (param = self → (addParameter s self param).1 = s)
  ∧ (param ≠ self →
       (addParameter s self param).2 = ret tt
       ∧ (addParameter s self param).1 !! self
         = Some (set_parameters (parameters node ++ [param]) node)
       ∧ length (addParameter s self param).1 = length s
       ∧ ∀ other, other ≠ self →
           (addParameter s self param).1 !! other = s !! other).
Proof.
  intros Hnode. unfold addParameter.
  destruct (decide (param = self)) as [->|Hne]; cbn [fst snd].
  - repeat split; done.
  - repeat split; try done.
    + unfold addOperator. by rewrite list_lookup_alter_eq, Hnode.
    + unfold addOperator. apply length_alter.
    + intros other Hother. unfold addOperator.
      by rewrite list_lookup_alter_ne.
Qed.

(** The claims above, at objects of the test script. *)

Lemma XOR_eval_spec_witness :
  ∃ t, eval (H:=literal_re) 2 Script.objects Script.test_xor None
       = (Eval Script.test_xor
            :: [Eval Script.test_false] ++ [Eval Script.test_true] ++ t,
          Return (VBool true)).
Proof.
  destruct (XOR_eval_spec (H:=literal_re) 1 Script.objects Script.test_xor
              (Script.op XOR [Script.test_false; Script.test_true]) None
              eq_refl eq_refl) as (_ & Htwo & _).
  destruct (Htwo Script.test_false Script.test_true
              [Eval Script.test_false] [Eval Script.test_true]
              (VBool false) (VBool true) eq_refl eq_refl eq_refl)
    as (t & Ht & _).
  by exists t.
Defined.

Lemma NOT_eval_spec_witness :
  eval (H:=literal_re) 2 Script.objects Script.test_not None
  = ([Eval Script.test_not; Eval Script.test_true], Return (VBool false)).
Proof.
  destruct (NOT_eval_spec (H:=literal_re) 1 Script.objects Script.test_not
              (Script.op NOT [Script.test_true]) None eq_refl eq_refl)
    as (_ & _ & Hone).
  exact (Hone Script.test_true [Eval Script.test_true] (VBool true)
           eq_refl eq_refl).
Defined.

Lemma addParameter_spec_witness :
  (addParameter Script.objects Script.test_and Script.test_and).1
  = Script.objects
  ∧ (addParameter Script.objects Script.test_and Script.test_or).1
      !! Script.test_and
    = Some (Script.op AND [Script.test_true; Script.test_false; Script.test_or]).
Proof.
  split.
  - destruct (addParameter_spec Script.objects Script.test_and Script.test_and
                (Script.op AND [Script.test_true; Script.test_false]) eq_refl)
      as (_ & Hsame & _).
    by apply Hsame.
  - destruct (addParameter_spec Script.objects Script.test_and Script.test_or
                (Script.op AND [Script.test_true; Script.test_false]) eq_refl)
      as (_ & _ & Hnew).
    destruct Hnew as (_ & Hlast & _); [by compute|]. exact Hlast.
Defined.

(** ** [RegexOp.eval] and the engine's cache *)


Section RegexFacts.
Context `{ReModule}.

Lemma RegexOp_compile_valid self engine :
  re_valid (pattern self) = true →
  RegexOp_compile self engine
  = ((λ e, re_cache_set e (pattern self) (own_matcher self)) <$> engine,
     ([Compile (pattern self) (negb (case_sensitive self))],
      Return (own_matcher self))).
Proof.
  intros Hvalid. unfold RegexOp_compile, re_compile, own_matcher.
  destruct (case_sensitive self), engine; simpl; rewrite Hvalid; done.
Qed.

Lemma RegexOp_compile_invalid self engine :
  re_valid (pattern self) = false →
  RegexOp_compile self engine
  = (engine,
     ([Compile (pattern self) (negb (case_sensitive self))], Raise re_error)).
Proof.
  intros Hvalid. unfold RegexOp_compile, re_compile.
  destruct (case_sensitive self); simpl; rewrite Hvalid; done.
Qed.

Lemma RegexOp_eval_hit self data e rx :
  re_cache e !! pattern self = Some rx →
  RegexOp_eval self data (Some e) = (Some e, search_with rx data).
Proof.
  intros Hhit. unfold RegexOp_eval. rewrite Hhit. by rewrite ret_bind.
Qed.

Lemma RegexOp_eval_miss self data e :
  re_cache e !! pattern self = None →
  re_valid (pattern self) = true →
  RegexOp_eval self data (Some e)
  = (Some (re_cache_set e (pattern self) (own_matcher self)),
     tell (Compile (pattern self) (negb (case_sensitive self))) ≫= λ _,
       search_with (own_matcher self) data).
Proof.
  intros Hmiss Hvalid. unfold RegexOp_eval.
  rewrite Hmiss, (RegexOp_compile_valid _ _ Hvalid). cbn [fmap option_fmap option_map].
  by rewrite bind_Return, tell_bind.
Qed.

Lemma RegexOp_eval_miss_invalid self data e :
  re_cache e !! pattern self = None →
  re_valid (pattern self) = false →
  RegexOp_eval self data (Some e)
  = (Some e,
     ([Compile (pattern self) (negb (case_sensitive self))], Raise re_error)).
Proof.
  intros Hmiss Hvalid. unfold RegexOp_eval.
  by rewrite Hmiss, (RegexOp_compile_invalid _ _ Hvalid).
Qed.

Lemma RegexOp_eval_no_engine self data :
  RegexOp_eval self data None
  = (None,
     if re_valid (pattern self)
     then tell (Compile (pattern self) (negb (case_sensitive self))) ≫= λ _,
            search_with (own_matcher self) data
     else ([Compile (pattern self) (negb (case_sensitive self))],
           Raise re_error)).
Proof.
  unfold RegexOp_eval. destruct (re_valid (pattern self)) eqn:Hvalid.
  - rewrite (RegexOp_compile_valid _ _ Hvalid). cbn [fmap option_fmap option_map].
    by rewrite bind_Return, tell_bind.
  - by rewrite (RegexOp_compile_invalid _ _ Hvalid).
Qed.

(** Searching a text returns true exactly when the matcher's pattern
    matches at some position of the text. *)
Lemma search_with_true rx text :
  result_of (search_with rx (Some text)) = Return (VBool true)
  ↔ matches_somewhere rx text.
Proof.
  unfold search_with, Regex_search, matches_somewhere.
  rewrite ret_bind.
  destruct (find (re_match_at rx text) (seq 0 (S (String.length text))))
    as [pos|] eqn:Hfind.
  - apply find_some in Hfind as [Hin Hm]. apply in_seq in Hin.
    split; [|done]. intros _. exists pos. split; [lia|done].
  - split; [done|]. intros (pos & Hle & Hm).
    pose proof (find_none _ _ Hfind pos) as Hno.
    rewrite Hno in Hm; [done|]. apply in_seq. lia.
Qed.

Lemma search_with_log rx data : compile_count (log_of (search_with rx data)) = 0.
Proof.
  unfold search_with, Regex_search.
  destruct data as [text|]; [|done]. rewrite ret_bind.
  by destruct (find (re_match_at rx text) (seq 0 (S (String.length text)))).
Qed.

Lemma compile_count_app l1 l2 :
  compile_count (l1 ++ l2) = compile_count l1 + compile_count l2.
Proof. unfold compile_count. by rewrite List.filter_app, length_app. Qed.

Lemma tell_search_result ev rx data :
  result_of (tell ev ≫= λ _, search_with rx data)
  = result_of (search_with rx data).
Proof. by rewrite tell_bind. Qed.
End RegexFacts.


Section RegexClaims.
Context `{ReModule}.

(** C2.  With an engine, a [RegexOp] whose pattern is a key of the cache
    searches with the stored matcher, compiles nothing and leaves the
    cache alone, and this is the same for any operator carrying that
    pattern, whatever its [case_sensitive]; when the pattern is not a key
    and compiles, the matcher is compiled with the operator's own flag
    and is in the cache under the pattern whatever the search then does
    (also when the search raises); a pattern that does not compile raises
    the compile error and leaves the cache alone. *)
Theorem RegexOp_eval_cache self data e :
  (∀ rx, re_cache e !! pattern self = Some rx →
     RegexOp_eval self data (Some e) = (Some e, search_with rx data)
     ∧ ∀ other, pattern other = pattern self →
         RegexOp_eval other data (Some e) = RegexOp_eval self data (Some e))
  ∧ (re_cache e !! pattern self = None →
     re_valid (pattern self) = true →
     ∃ e',
       RegexOp_eval self data (Some e)
       = (Some e',
          tell (Compile (pattern self) (negb (case_sensitive self))) ≫= λ _,
            search_with (own_matcher self) data)
       ∧ re_cache e' = <[pattern self := own_matcher self]> (re_cache e)
       ∧ re_cache e' !! pattern self = Some (own_matcher self))
  ∧ (re_cache e !! pattern self = None →
     re_valid (pattern self) = false →
     RegexOp_eval self data (Some e)
     = (Some e,
        ([Compile (pattern self) (negb (case_sensitive self))],
         Raise re_error))).
Proof.
  split; [|split].
  - intros rx Hhit. split; [by apply RegexOp_eval_hit|].
    intros other Hpat. rewrite (RegexOp_eval_hit self _ _ _ Hhit).
    apply RegexOp_eval_hit. by rewrite Hpat.
  - intros Hmiss Hvalid.
    exists (re_cache_set e (pattern self) (own_matcher self)).
    split; [by apply RegexOp_eval_miss|]. split; [done|].
    apply lookup_insert_eq.
  - apply RegexOp_eval_miss_invalid.
Qed.

(** C1, as amended.  Without an engine, or with an engine whose cache
    does not hold the pattern, [RegexOp.eval] returns true exactly when
    the pattern compiles and matches somewhere in the text, ignoring case
    unless [case_sensitive] is set.  With an engine whose cache holds the
    pattern it returns true exactly when the stored matcher matches
    somewhere in the text. *)
Theorem RegexOp_eval_search self text engine :
  (engine = None
   ∨ (∃ e, engine = Some e ∧ re_cache e !! pattern self = None) →
   RegexOp_eval_search_spec self text engine)
  ∧ (∀ e rx, engine = Some e → re_cache e !! pattern self = Some rx →
       (result_of (RegexOp_eval self (Some text) engine).2
        = Return (VBool true)
        ↔ matches_somewhere rx text)).
Proof.
  split.
  - unfold RegexOp_eval_search_spec.
    intros [->|(e & -> & Hmiss)].
    + rewrite RegexOp_eval_no_engine. cbn [snd].
      destruct (re_valid (pattern self)).
      * rewrite tell_search_result, search_with_true.
        split; [by intros ?|by intros [_ ?]].
      * split; [done|]. intros [Hf _]. discriminate Hf.
    + destruct (re_valid (pattern self)) eqn:Hvalid.
      * rewrite (RegexOp_eval_miss _ _ _ Hmiss Hvalid). cbn [snd].
        rewrite tell_search_result, search_with_true.
        split; [by intros ?|by intros [_ ?]].
      * rewrite (RegexOp_eval_miss_invalid _ _ _ Hmiss Hvalid).
        split; [done|]. intros [Hf _]. discriminate Hf.
  - intros e rx -> Hhit. rewrite (RegexOp_eval_hit _ _ _ _ Hhit).
    apply search_with_true.
Qed.

(** C9.  [Engine.new_op] for a [RegexOp] with a pattern that compiles
    puts into the cache a matcher compiled without [re.IGNORECASE],
    whatever [case_sensitive] the new operator has; evaluating the new
    operator with that engine then searches with this case-sensitive
    matcher and compiles nothing, also when the operator was left at
    [case_sensitive=False]. *)
Theorem new_op_caches_case_sensitive (self : Engine) (s : list Node)
    (kw : Kwargs) (p : string) :
  kw_pattern kw = Some p → re_valid p = true →
  ∃ self' s' node,
    new_op self s (Some RegexOp) kw
    = (self', s', ([Compile p false], Return (length s)))
    ∧ re_cache self' !! p
      = Some {| rx_pattern := p; rx_ignorecase := false |}
    ∧ s' !! length s = Some node
    ∧ pattern node = p
    ∧ case_sensitive node = default false (kw_case_sensitive kw)
    ∧ ∀ data,
        RegexOp_eval node data (Some self')
        = (Some self',
           search_with {| rx_pattern := p; rx_ignorecase := false |} data).
Proof.
  intros Hp Hvalid. unfold new_op, construct, cache_regex, re_compile.
  rewrite Hp. cbn [decide_rel]. rewrite decide_True by done.
  rewrite Hvalid.
  eexists _, _, _. split; [reflexivity|].
  assert (Hnode : alter (set_connection (dbconnection self)) (length s)
            (s ++ [{| cls := RegexOp; name := kw_name kw; parameters := [];
                      pattern := p;
                      case_sensitive := default false (kw_case_sensitive kw);
                      connection := None |}]) !! length s
          = Some {| cls := RegexOp; name := kw_name kw; parameters := [];
                    pattern := p;
                    case_sensitive := default false (kw_case_sensitive kw);
                    connection := dbconnection self |}).
  { rewrite list_lookup_alter_eq, lookup_app_r by done.
    by rewrite Nat.sub_diag. }
  split; [apply lookup_insert_eq|]. split; [exact Hnode|].
  split; [done|]. split; [done|]. intros data.
  apply RegexOp_eval_hit. apply lookup_insert_eq.
Qed.

(** C7, as amended.  Two [RegexOp] operators with the same pattern,
    evaluated one after the other on the same data with the same engine,
    give the same result.  When the cache did not hold the pattern and
    the pattern compiles, the two evaluations make one call of
    [re.compile] in total; when the cache already held the pattern they
    make none. *)
Theorem eval_both_consistent first second data e :
  pattern first = pattern second →
  result_of (eval_both first second data e).1
  = result_of (eval_both first second data e).2
  ∧ (re_cache e !! pattern first = None →
     re_valid (pattern first) = true →
     compile_count (log_of (eval_both first second data e).1
                    ++ log_of (eval_both first second data e).2) = 1)
  ∧ (is_Some (re_cache e !! pattern first) →
     compile_count (log_of (eval_both first second data e).1
                    ++ log_of (eval_both first second data e).2) = 0).
Proof.
  intros Hpat. unfold eval_both.
  destruct (re_cache e !! pattern first) as [rx|] eqn:Hc.
  - rewrite (RegexOp_eval_hit first _ _ _ Hc).
    rewrite (RegexOp_eval_hit second _ _ rx) by by rewrite <- Hpat.
    cbn [fst snd]. split; [done|]. split; [done|]. intros _.
    by rewrite compile_count_app, search_with_log.
  - destruct (re_valid (pattern first)) eqn:Hvalid.
    + rewrite (RegexOp_eval_miss first _ _ Hc Hvalid).
      rewrite (RegexOp_eval_hit second _ _ (own_matcher first)).
      2:{ rewrite <- Hpat. apply lookup_insert_eq. }
      cbn [fst snd]. split; [by rewrite tell_search_result|].
      split; [|by intros [? ?]]. intros _ _.
      rewrite tell_bind, compile_count_app, search_with_log.
      unfold log_of at 1. cbn [fst].
      change (compile_count (Compile (pattern first) (negb (case_sensitive first))
                :: log_of (search_with (own_matcher first) data)))
        with (S (compile_count (log_of (search_with (own_matcher first) data)))).
      by rewrite search_with_log.
    + rewrite (RegexOp_eval_miss_invalid first _ _ Hc Hvalid).
      rewrite (RegexOp_eval_miss_invalid second _ _) by by rewrite <- Hpat.
      cbn [fst snd]. split; [done|]. split; [done|by intros [? ?]].
Qed.

(** C8.  The result of an evaluation is determined by the operator, the
    data and the contents of the cache.  Two engines that agree on the
    cache give [RegexOp.eval] the same run and leave the same cache,
    whatever else differs between them; two runs of [eval] on the same
    store, operator and data that finish are the same run, whatever fuel
    each was given; and [eval] gives the same run on two stores whose
    operators differ in their names and connections only. *)
Theorem eval_pure :
  (∀ self data e1 e2,
     re_cache e1 = re_cache e2 →
     (RegexOp_eval self data (Some e1)).2
     = (RegexOp_eval self data (Some e2)).2
     ∧ re_cache <$> (RegexOp_eval self data (Some e1)).1
       = re_cache <$> (RegexOp_eval self data (Some e2)).1)
  ∧ (∀ n m s self data,
       terminates (eval n s self data) → terminates (eval m s self data) →
       eval n s self data = eval m s self data)
  ∧ (∀ n (s1 s2 : list Node) self data,
       Forall2 same_logic s1 s2 →
       eval n s1 self data = eval n s2 self data).
Proof.
  split; [|split; [apply eval_fuel_irrelevant|apply eval_same_logic]].
  intros self data e1 e2 Hcache.
  destruct (re_cache e1 !! pattern self) as [rx|] eqn:Hc.
  - rewrite (RegexOp_eval_hit self _ e1 rx Hc).
    rewrite (RegexOp_eval_hit self _ e2 rx) by by rewrite <- Hcache.
    cbn. by rewrite Hcache.
  - destruct (re_valid (pattern self)) eqn:Hvalid.
    + rewrite (RegexOp_eval_miss self _ e1 Hc Hvalid).
      rewrite (RegexOp_eval_miss self _ e2) by (by rewrite <- ?Hcache).
      cbn. by rewrite Hcache.
    + rewrite (RegexOp_eval_miss_invalid self _ e1 Hc Hvalid).
      rewrite (RegexOp_eval_miss_invalid self _ e2) by (by rewrite <- ?Hcache).
      cbn. by rewrite Hcache.
Qed.
End RegexClaims.

(** The pre-warmed engine of [Prewarmed] holds a case-sensitive matcher for
    the pattern; the operator it was made for is case-insensitive. *)
Lemma Prewarmed_built :
  Prewarmed.built
  = (Prewarmed.engine, [Prewarmed.contains_markman],
     ([Compile "markman" false], Return 0))
  ∧ re_cache Prewarmed.engine !! "markman"
    = Some {| rx_pattern := "markman"; rx_ignorecase := false |}
  ∧ case_sensitive Prewarmed.contains_markman = false.
Proof. repeat split; vm_compute; reflexivity. Qed.

(** C1 fails when the cache was pre-warmed: the pattern matches the text
    when case is ignored, the operator asks for case to be ignored, and
    [RegexOp.eval] with the engine returns false. *)
Lemma RegexOp_eval_search_prewarmed :
  ¬ RegexOp_eval_search_spec (H:=literal_re) Prewarmed.contains_markman
      Prewarmed.text (Some Prewarmed.engine).
Proof.
  intros [_ Hback].
  assert (Hfalse :
    result_of (RegexOp_eval (H:=literal_re) Prewarmed.contains_markman
                 (Some Prewarmed.text) (Some Prewarmed.engine)).2
    = Return (VBool false)) by (vm_compute; reflexivity).
  rewrite Hfalse in Hback. enough (Return (VBool false) = Return (VBool true))
    by discriminate.
  apply Hback. split; [reflexivity|]. exists 10. split; vm_compute; [lia|reflexivity].
Qed.

Lemma RegexOp_eval_search_witness :
  RegexOp_eval_search_spec (H:=literal_re) Prewarmed.contains_markman
    Prewarmed.text None
  ∧ RegexOp_eval_search_spec (H:=literal_re) Prewarmed.contains_markman
      Prewarmed.text (Some (Engine_init 0))
  ∧ (result_of (RegexOp_eval (H:=literal_re) Prewarmed.contains_markman
                  (Some Prewarmed.text) (Some Prewarmed.engine)).2
     = Return (VBool true)
     ↔ matches_somewhere (H:=literal_re)
         {| rx_pattern := "markman"; rx_ignorecase := false |} Prewarmed.text).
Proof.
  split; [|split].
  - apply (RegexOp_eval_search (H:=literal_re)). by left.
  - apply (RegexOp_eval_search (H:=literal_re)). right.
    exists (Engine_init 0). split; reflexivity.
  - apply (RegexOp_eval_search (H:=literal_re) Prewarmed.contains_markman
             Prewarmed.text (Some Prewarmed.engine)) with Prewarmed.engine;
      vm_compute; reflexivity.
Defined.

Lemma RegexOp_eval_cache_witness :
  RegexOp_eval (H:=literal_re) Prewarmed.contains_markman None
    (Some Prewarmed.engine)
  = (Some Prewarmed.engine,
     search_with (H:=literal_re)
       {| rx_pattern := "markman"; rx_ignorecase := false |} None)
  ∧ ∃ e',
      RegexOp_eval (H:=literal_re) Prewarmed.contains_markman None
        (Some (Engine_init 0))
      = (Some e', ([Compile "markman" true], Raise TypeError))
      ∧ re_cache e' !! "markman"
        = Some {| rx_pattern := "markman"; rx_ignorecase := true |}.
Proof.
  destruct (RegexOp_eval_cache (H:=literal_re) Prewarmed.contains_markman None
              Prewarmed.engine) as [Hhit _].
  destruct (RegexOp_eval_cache (H:=literal_re) Prewarmed.contains_markman None
              (Engine_init 0)) as (_ & Hmiss & _).
  split.
  - apply Hhit. vm_compute. reflexivity.
  - destruct Hmiss as (e' & Heval & _ & Hcached); [reflexivity..|].
    exists e'. split; [exact Heval|exact Hcached].
Defined.

Lemma new_op_caches_case_sensitive_witness :
  ∃ self' s' node,
    new_op (H:=literal_re) (Engine_init 0) [] (Some RegexOp) Prewarmed.kw
    = (self', s', ([Compile "markman" false], Return 0))
    ∧ re_cache self' !! "markman"
      = Some {| rx_pattern := "markman"; rx_ignorecase := false |}
    ∧ s' !! 0 = Some node
    ∧ pattern node = "markman"
    ∧ case_sensitive node = false
    ∧ ∀ data,
        RegexOp_eval (H:=literal_re) node data (Some self')
        = (Some self',
           search_with (H:=literal_re)
             {| rx_pattern := "markman"; rx_ignorecase := false |} data).
Proof.
  exact (new_op_caches_case_sensitive (H:=literal_re) (Engine_init 0) []
           Prewarmed.kw "markman" eq_refl eq_refl).
Defined.


(** C7 fails when the cache was pre-warmed: the two evaluations make no
    call of [re.compile]. *)
Lemma cache_consistency_prewarmed :
  ¬ cache_consistency_spec (H:=literal_re) Prewarmed.contains_markman
      also_markman Prewarmed.text Prewarmed.engine.
Proof.
  intros Hspec. specialize (Hspec eq_refl).
  vm_compute in Hspec. destruct Hspec as [Hcount _]. discriminate Hcount.
Qed.

Lemma eval_both_consistent_witness :
  result_of (eval_both (H:=literal_re) Prewarmed.contains_markman also_markman
               (Some Prewarmed.text) (Engine_init 0)).1
  = result_of (eval_both (H:=literal_re) Prewarmed.contains_markman
                 also_markman (Some Prewarmed.text) (Engine_init 0)).2
  ∧ compile_count
      (log_of (eval_both (H:=literal_re) Prewarmed.contains_markman
                 also_markman (Some Prewarmed.text) (Engine_init 0)).1
       ++ log_of (eval_both (H:=literal_re) Prewarmed.contains_markman
                    also_markman (Some Prewarmed.text) (Engine_init 0)).2) = 1
  ∧ compile_count
      (log_of (eval_both (H:=literal_re) Prewarmed.contains_markman
                 also_markman (Some Prewarmed.text) Prewarmed.engine).1
       ++ log_of (eval_both (H:=literal_re) Prewarmed.contains_markman
                    also_markman (Some Prewarmed.text) Prewarmed.engine).2) = 0.
Proof.
  destruct (eval_both_consistent (H:=literal_re) Prewarmed.contains_markman
              also_markman (Some Prewarmed.text) (Engine_init 0) eq_refl)
    as (Hsame & Hone & _).
  destruct (eval_both_consistent (H:=literal_re) Prewarmed.contains_markman
              also_markman (Some Prewarmed.text) Prewarmed.engine eq_refl)
    as (_ & _ & Hzero).
  split; [exact Hsame|]. split.
  - apply Hone; reflexivity.
  - apply Hzero. exists {| rx_pattern := "markman"; rx_ignorecase := false |}.
    vm_compute. reflexivity.
Defined.

Lemma eval_pure_witness :
  (RegexOp_eval (H:=literal_re) Prewarmed.contains_markman
     (Some Prewarmed.text) (Some (Engine_init 0))).2
  = (RegexOp_eval (H:=literal_re) Prewarmed.contains_markman
       (Some Prewarmed.text) (Some (Engine_init 1))).2
  ∧ eval (H:=literal_re) 2 Script.objects Script.test_true None
    = eval (H:=literal_re) 7 Script.objects Script.test_true None
  ∧ eval (H:=literal_re) 1 [named "first"] 0 None
    = eval (H:=literal_re) 1 [named "second"] 0 None.
Proof.
  destruct (eval_pure (H:=literal_re)) as (Hengine & Hfuel & Hnames).
  split; [|split].
  - apply (Hengine Prewarmed.contains_markman (Some Prewarmed.text)
             (Engine_init 0) (Engine_init 1) eq_refl).
  - apply Hfuel; vm_compute; discriminate.
  - apply Hnames. repeat constructor.
Defined.

(** ** Lookup by name *)


Lemma elem_of_selectBy_name (s : list Node) nm i :
  i ∈ selectBy_name s nm ↔ name <$> s !! i = Some nm.
Proof.
  unfold selectBy_name. rewrite list_elem_of_filter, elem_of_seq.
  split; [by intros [? _]|]. intros Hi. split; [done|].
  destruct (s !! i) as [node|] eqn:Hnode; [|done].
  apply lookup_lt_Some in Hnode. lia.
Qed.

Lemma NoDup_selectBy_name (s : list Node) nm : NoDup (selectBy_name s nm).
Proof. apply NoDup_filter, NoDup_seq. Qed.

Lemma get_op_one (s : list Node) nm op :
  selectBy_name s nm = [op] → get_op s nm = ret op.
Proof. intros Hrs. unfold get_op. by rewrite Hrs. Qed.

Lemma get_op_not_one (s : list Node) nm :
  length (selectBy_name s nm) ≠ 1 → get_op s nm = raise get_op_error.
Proof.
  intros Hlen. unfold get_op. by rewrite bool_decide_eq_false_2.
Qed.

(** C6, as amended.  [get_op] returns the operator that carries the name
    when exactly one does; when none does and when more than one does it
    fails the same assertion, so the two failures are one outcome. *)
Theorem get_op_unique_or_assertion (s : list Node) (nm : option string) :
  (∀ op, (∀ i, name <$> s !! i = Some nm ↔ i = op) → get_op s nm = ret op)
  ∧ ((∀ i, name <$> s !! i ≠ Some nm) → get_op s nm = raise get_op_error)
  ∧ (∀ i j, i ≠ j →
       name <$> s !! i = Some nm → name <$> s !! j = Some nm →
       get_op s nm = raise get_op_error).
Proof.
  pose proof (NoDup_selectBy_name s nm) as Hnd.
  pose proof (elem_of_selectBy_name s nm) as Hin.
  repeat split.
  - intros op Hop. apply get_op_one.
    destruct (selectBy_name s nm) as [|x [|y rest]].
    + exfalso. apply (not_elem_of_nil op), Hin, Hop. done.
    + f_equal. apply Hop, Hin. left.
    + exfalso. apply NoDup_cons in Hnd as [Hx _]. apply Hx.
      assert (x = op) as -> by (apply Hop, Hin; left).
      assert (y = op) as -> by (apply Hop, Hin; right; left). left.
  - intros Hnone. apply get_op_not_one.
    destruct (selectBy_name s nm) as [|x rest]; [done|].
    exfalso. apply (Hnone x), Hin. left.
  - intros i j Hne Hi Hj. apply get_op_not_one.
    apply Hin in Hi. apply Hin in Hj.
    destruct (selectBy_name s nm) as [|x [|y rest]]; [| |done].
    + by apply not_elem_of_nil in Hi.
    + apply list_elem_of_singleton in Hi. apply list_elem_of_singleton in Hj.
      congruence.
Qed.

(** C6 fails: with no operator of the name and with two of them [get_op]
    raises the very same exception, so no two distinct errors can stand
    for the two cases. *)
Lemma get_op_errors_coincide :
  get_op [] (Some "rule") = raise get_op_error
  ∧ get_op [named "rule"; named "rule"] (Some "rule") = raise get_op_error
  ∧ ¬ ∃ NotFoundError AmbiguousNameError,
        get_op_spec NotFoundError AmbiguousNameError.
Proof.
  split; [reflexivity|]. split; [reflexivity|].
  intros (nf & amb & Hne & Hspec). apply Hne.
  destruct (Hspec [] (Some "rule")) as (_ & Hnone & _).
  destruct (Hspec [named "rule"; named "rule"] (Some "rule")) as (_ & _ & Htwo).
  specialize (Hnone eq_refl).
  assert (Hlen : 1 < length (selectBy_name [named "rule"; named "rule"]
                               (Some "rule"))) by (vm_compute; lia).
  specialize (Htwo Hlen). vm_compute in Hnone, Htwo. congruence.
Qed.

Lemma get_op_unique_or_assertion_witness :
  get_op [named "other"; named "rule"] (Some "rule") = ret 1
  ∧ get_op [named "other"] (Some "rule") = raise get_op_error
  ∧ get_op [named "rule"; named "rule"] (Some "rule") = raise get_op_error.
Proof.
  split; [|split].
  - apply (get_op_unique_or_assertion [named "other"; named "rule"]).
    intros [|[|i]]; split; intros Hi; try done; by destruct i.
  - apply (get_op_unique_or_assertion [named "other"]).
    intros [|i]; [done|by destruct i].
  - by apply (get_op_unique_or_assertion [named "rule"; named "rule"]
                (Some "rule")) with 0 1.
Defined.

(** ** The loops of [AND], [OR] and [NOR], run by run *)

Lemma bind_Raise {A B} log e (k : A → Run B) :
  ((log, Raise e) ≫= k) = (log, Raise e).
Proof. reflexivity. Qed.

Lemma bind_OutOfFuel {A B} log (k : A → Run B) :
  ((log, OutOfFuel) ≫= k) = (log, OutOfFuel).
Proof. reflexivity. Qed.

Lemma run_eta {A} (m : Run A) : (log_of m, result_of m) = m.
Proof. by destruct m. Qed.

Section LoopRuns.
Variable call : oid → Run value.

(** [AND]'s loop goes through a prefix of parameters that return truthy
    values and then does what it does on the rest. *)
Lemma AND_loop_prefix pre rest runs :
  all_return call pre runs →
  Forall (λ r, truthy r.2 = true) runs →
  AND_loop call (pre ++ rest)
  = (concat (fst <$> runs) ++ log_of (AND_loop call rest),
     result_of (AND_loop call rest)).
Proof.
  intros Hruns. induction Hruns as [|p r pre runs Hp _ IH]; intros Htrue.
  - change ([] ++ rest) with rest. by destruct (AND_loop call rest).
  - apply Forall_cons in Htrue as [Hr Htrue]. cbn [app AND_loop].
    rewrite Hp, bind_Return, Hr. cbn [negb]. rewrite (IH Htrue).
    cbn [fmap list_fmap concat log_of result_of fst snd].
    by rewrite app_assoc.
Qed.

(** [OR]'s loop goes through a prefix of parameters that return falsy
    values. *)
Lemma OR_loop_prefix pre rest runs :
  all_return call pre runs →
  Forall (λ r, truthy r.2 = false) runs →
  OR_loop call (pre ++ rest)
  = (concat (fst <$> runs) ++ log_of (OR_loop call rest),
     result_of (OR_loop call rest)).
Proof.
  intros Hruns. induction Hruns as [|p r pre runs Hp _ IH]; intros Hfalse.
  - change ([] ++ rest) with rest. by destruct (OR_loop call rest).
  - apply Forall_cons in Hfalse as [Hr Hfalse]. cbn [app OR_loop].
    rewrite Hp, bind_Return, Hr. rewrite (IH Hfalse).
    cbn [fmap list_fmap concat log_of result_of fst snd].
    by rewrite app_assoc.
Qed.

(** So does the loop of [NOT] and [NOR]. *)
Lemma NOR_loop_prefix pre rest runs :
  all_return call pre runs →
  Forall (λ r, truthy r.2 = false) runs →
  NOR_loop call (pre ++ rest)
  = (concat (fst <$> runs) ++ log_of (NOR_loop call rest),
     result_of (NOR_loop call rest)).
Proof.
  intros Hruns. induction Hruns as [|p r pre runs Hp _ IH]; intros Hfalse.
  - change ([] ++ rest) with rest. by destruct (NOR_loop call rest).
  - apply Forall_cons in Hfalse as [Hr Hfalse]. cbn [app NOR_loop].
    rewrite Hp, bind_Return, Hr. rewrite (IH Hfalse).
    cbn [fmap list_fmap concat log_of result_of fst snd].
    by rewrite app_assoc.
Qed.

(** The loops stop at the first parameter that decides the result, or that
    does not return. *)
Lemma AND_loop_stops c post t v :
  call c = (t, Return v) → truthy v = false →
  AND_loop call (c :: post) = (t, Return (VBool false)).
Proof.
  intros Hc Hv. cbn [AND_loop]. rewrite Hc, bind_Return, Hv.
  cbn. by rewrite app_nil_r.
Qed.

Lemma OR_loop_stops c post t v :
  call c = (t, Return v) → truthy v = true →
  OR_loop call (c :: post) = (t, Return (VBool true)).
Proof.
  intros Hc Hv. cbn [OR_loop]. rewrite Hc, bind_Return, Hv.
  cbn. by rewrite app_nil_r.
Qed.

Lemma NOR_loop_stops c post t v :
  call c = (t, Return v) → truthy v = true →
  NOR_loop call (c :: post) = (t, Return (VBool false)).
Proof.
  intros Hc Hv. cbn [NOR_loop]. rewrite Hc, bind_Return, Hv.
  cbn. by rewrite app_nil_r.
Qed.

Lemma AND_loop_raises c post t e :
  call c = (t, Raise e) → AND_loop call (c :: post) = (t, Raise e).
Proof. intros Hc. cbn [AND_loop]. by rewrite Hc. Qed.

Lemma OR_loop_raises c post t e :
  call c = (t, Raise e) → OR_loop call (c :: post) = (t, Raise e).
Proof. intros Hc. cbn [OR_loop]. by rewrite Hc. Qed.

Lemma NOR_loop_raises c post t e :
  call c = (t, Raise e) → NOR_loop call (c :: post) = (t, Raise e).
Proof. intros Hc. cbn [NOR_loop]. by rewrite Hc. Qed.
End LoopRuns.

Section LogicalOperators.
Context `{ReModule}.

Lemma eval_class n s self node data c :
  s !! self = Some node → cls node = c →
  eval (S n) s self data
  = (Eval self
       :: log_of (dispatch (λ p, eval n s p data)
                    {| cls := c; name := name node;
                       parameters := parameters node; pattern := pattern node;
                       case_sensitive := case_sensitive node;
                       connection := connection node |} data),
     result_of (dispatch (λ p, eval n s p data)
                  {| cls := c; name := name node;
                     parameters := parameters node; pattern := pattern node;
                     case_sensitive := case_sensitive node;
                     connection := connection node |} data)).
Proof. intros Hnode <-. rewrite (eval_node _ _ _ _ _ Hnode). by destruct node. Qed.

(** X1.  [AND.eval] calls its parameters from left to right.  When all of
    them return truthy values it returns true (so also with no
    parameters); at the first parameter that returns a falsy value it
    returns false, and at the first that raises it raises, and in both
    cases the parameters after that one are not called. *)
Theorem AND_eval_spec n s self node data pre runs :
  s !! self = Some node → cls node = AND →
  all_return (λ p, eval n s p data) pre runs →
  Forall (λ r, truthy r.2 = true) runs →
  (parameters node = pre →
     eval (S n) s self data
     = (Eval self :: concat (fst <$> runs), Return (VBool true)))
  ∧ (∀ c post t v,
       parameters node = pre ++ c :: post →
       eval n s c data = (t, Return v) → truthy v = false →
       eval (S n) s self data
       = (Eval self :: concat (fst <$> runs) ++ t, Return (VBool false)))
  ∧ (∀ c post t e,
       parameters node = pre ++ c :: post →
       eval n s c data = (t, Raise e) →
       eval (S n) s self data
       = (Eval self :: concat (fst <$> runs) ++ t, Raise e)).
Proof.
  intros Hnode Hcls Hruns Htrue.
  rewrite (eval_class _ _ _ _ _ _ Hnode Hcls). unfold dispatch. cbn [cls parameters].
  pose proof (AND_loop_prefix (λ p, eval n s p data) pre) as Hpre.
  split; [|split].
  - intros ->. rewrite <- (app_nil_r pre), (Hpre [] runs Hruns Htrue).
    cbn. by rewrite app_nil_r.
  - intros c post t v -> Hc Hv. rewrite (Hpre _ runs Hruns Htrue).
    by rewrite (AND_loop_stops (λ p, eval n s p data) c post t v Hc Hv).
  - intros c post t e -> Hc. rewrite (Hpre _ runs Hruns Htrue).
    by rewrite (AND_loop_raises (λ p, eval n s p data) c post t e Hc).
Qed.

(** X2.  [OR.eval] calls its parameters from left to right.  When all of
    them return falsy values it returns false (so also with no
    parameters); at the first parameter that returns a truthy value it
    returns true, and at the first that raises it raises, and in both
    cases the parameters after that one are not called. *)
Theorem OR_eval_spec n s self node data pre runs :
  s !! self = Some node → cls node = OR →
  all_return (λ p, eval n s p data) pre runs →
  Forall (λ r, truthy r.2 = false) runs →
  (parameters node = pre →
     eval (S n) s self data
     = (Eval self :: concat (fst <$> runs), Return (VBool false)))
  ∧ (∀ c post t v,
       parameters node = pre ++ c :: post →
       eval n s c data = (t, Return v) → truthy v = true →
       eval (S n) s self data
       = (Eval self :: concat (fst <$> runs) ++ t, Return (VBool true)))
  ∧ (∀ c post t e,
       parameters node = pre ++ c :: post →
       eval n s c data = (t, Raise e) →
       eval (S n) s self data
       = (Eval self :: concat (fst <$> runs) ++ t, Raise e)).
Proof.
  intros Hnode Hcls Hruns Hfalse.
  rewrite (eval_class _ _ _ _ _ _ Hnode Hcls). unfold dispatch. cbn [cls parameters].
  pose proof (OR_loop_prefix (λ p, eval n s p data) pre) as Hpre.
  split; [|split].
  - intros ->. rewrite <- (app_nil_r pre), (Hpre [] runs Hruns Hfalse).
    cbn. by rewrite app_nil_r.
  - intros c post t v -> Hc Hv. rewrite (Hpre _ runs Hruns Hfalse).
    by rewrite (OR_loop_stops (λ p, eval n s p data) c post t v Hc Hv).
  - intros c post t e -> Hc. rewrite (Hpre _ runs Hruns Hfalse).
    by rewrite (OR_loop_raises (λ p, eval n s p data) c post t e Hc).
Qed.
End LogicalOperators.

(** ** The base class *)

Section BaseOperator.
Context `{ReModule}.

(** The runs of a parameter list with the base operator in it, when the
    parameters on both sides of it return. *)
Lemma all_return_around call self pre mid runs mruns :
  call self = ([Eval self], Return VNone) →
  all_return call pre runs → all_return call mid mruns →
  all_return call (pre ++ self :: mid) (runs ++ ([Eval self], VNone) :: mruns).
Proof.
  intros Hself Hruns Hmid. apply Forall2_app; [done|]. by constructor.
Qed.

Lemma concat_logs_around (self : oid) (runs mruns : list (list event * value)) :
  concat (fst <$> runs ++ ([Eval self], VNone) :: mruns)
  = concat (fst <$> runs) ++ [Eval self] ++ concat (fst <$> mruns).
Proof. by rewrite fmap_app, concat_app. Qed.

(** C10.  An object of the base class [Operator] evaluates to [None]: the
    call returns, the value is no boolean, and nothing is raised.  A
    parent takes that value as false.  An [AND] that reaches the object,
    its earlier parameters having returned truthy values, calls it and
    returns false without calling the parameters after it.  An [OR] that
    reaches it, its earlier parameters having returned falsy values,
    calls it and goes on: it returns false when all the parameters after
    it return falsy values (so also when there are none), true at the
    first one that returns a truthy value, and raises at the first one
    that raises. *)
Theorem Operator_eval_None n s self node data :
  s !! self = Some node → cls node = Operator →
  eval (S n) s self data = ([Eval self], Return VNone)
  ∧ (∀ parent pnode pre post runs,
       s !! parent = Some pnode →
       parameters pnode = pre ++ self :: post →
       all_return (λ p, eval (S n) s p data) pre runs →
       (cls pnode = AND →
        Forall (λ r, truthy r.2 = true) runs →
        eval (S (S n)) s parent data
        = (Eval parent :: concat (fst <$> runs) ++ [Eval self],
           Return (VBool false)))
       ∧ (cls pnode = OR →
          Forall (λ r, truthy r.2 = false) runs →
          (∀ mruns,
             all_return (λ p, eval (S n) s p data) post mruns →
             Forall (λ r, truthy r.2 = false) mruns →
             eval (S (S n)) s parent data
             = (Eval parent
                  :: concat (fst <$> runs) ++ [Eval self]
                     ++ concat (fst <$> mruns),
                Return (VBool false)))
          ∧ (∀ mid c rest mruns t v,
               post = mid ++ c :: rest →
               all_return (λ p, eval (S n) s p data) mid mruns →
               Forall (λ r, truthy r.2 = false) mruns →
               eval (S n) s c data = (t, Return v) → truthy v = true →
               eval (S (S n)) s parent data
               = (Eval parent
                    :: concat (fst <$> runs) ++ [Eval self]
                       ++ concat (fst <$> mruns) ++ t,
                  Return (VBool true)))
          ∧ (∀ mid c rest mruns t e,
               post = mid ++ c :: rest →
               all_return (λ p, eval (S n) s p data) mid mruns →
               Forall (λ r, truthy r.2 = false) mruns →
               eval (S n) s c data = (t, Raise e) →
               eval (S (S n)) s parent data
               = (Eval parent
                    :: concat (fst <$> runs) ++ [Eval self]
                       ++ concat (fst <$> mruns) ++ t,
                  Raise e)))).
Proof.
  intros Hnode Hcls.
  assert (Hself : eval (S n) s self data = ([Eval self], Return VNone)).
  { rewrite (eval_node _ _ _ _ _ Hnode). unfold dispatch. by rewrite Hcls. }
  split; [done|]. intros parent pnode pre post runs Hp Hps Hruns.
  split; intros Hc Hvalues;
    rewrite (eval_class _ _ _ _ _ _ Hp Hc); unfold dispatch;
    cbn [cls parameters]; rewrite Hps.
  - rewrite (AND_loop_prefix (λ p, eval (S n) s p data) pre _ runs Hruns Hvalues).
    by rewrite (AND_loop_stops (λ p, eval (S n) s p data) self post
                  [Eval self] VNone Hself eq_refl).
  - assert (Hfalse : ∀ mruns : list (list event * value),
              Forall (λ r, truthy r.2 = false) mruns →
              Forall (λ r, truthy r.2 = false)
                (runs ++ ([Eval self], VNone) :: mruns)).
    { intros mruns Hm. apply Forall_app. split; [done|]. by constructor. }
    split; [|split].
    + intros mruns Hpost Hm.
      pose proof (all_return_around _ self pre post runs mruns Hself Hruns Hpost)
        as Hall.
      rewrite <- (app_nil_r (pre ++ self :: post)).
      rewrite (OR_loop_prefix _ _ [] _ Hall (Hfalse mruns Hm)).
      rewrite concat_logs_around. cbn [OR_loop ret log_of result_of fst snd].
      by rewrite app_nil_r.
    + intros mid c rest mruns t v -> Hmid Hm Hcall Hv.
      pose proof (all_return_around _ self pre mid runs mruns Hself Hruns Hmid)
        as Hall.
      change (pre ++ self :: mid ++ c :: rest)
        with (pre ++ (self :: mid) ++ c :: rest).
      rewrite app_assoc.
      rewrite (OR_loop_prefix _ _ (c :: rest) _ Hall (Hfalse mruns Hm)).
      rewrite (OR_loop_stops (λ p, eval (S n) s p data) c rest t v Hcall Hv).
      rewrite concat_logs_around. cbn [log_of result_of fst snd].
      by rewrite <- !app_assoc.
    + intros mid c rest mruns t e -> Hmid Hm Hcall.
      pose proof (all_return_around _ self pre mid runs mruns Hself Hruns Hmid)
        as Hall.
      change (pre ++ self :: mid ++ c :: rest)
        with (pre ++ (self :: mid) ++ c :: rest).
      rewrite app_assoc.
      rewrite (OR_loop_prefix _ _ (c :: rest) _ Hall (Hfalse mruns Hm)).
      rewrite (OR_loop_raises (λ p, eval (S n) s p data) c rest t e Hcall).
      rewrite concat_logs_around. cbn [log_of result_of fst snd].
      by rewrite <- !app_assoc.
Qed.
End BaseOperator.

Lemma Operator_eval_None_witness :
  eval (H:=literal_re) 1 Reached.objects Reached.base None
  = ([Eval Reached.base], Return VNone)
  ∧ eval (H:=literal_re) 2 Reached.objects Reached.both None
    = ([Eval Reached.both; Eval Reached.yes; Eval Reached.base],
       Return (VBool false))
  ∧ eval (H:=literal_re) 2 Reached.objects Reached.neither None
    = ([Eval Reached.neither; Eval Reached.no; Eval Reached.base;
        Eval Reached.no],
       Return (VBool false))
  ∧ eval (H:=literal_re) 2 Reached.objects Reached.later None
    = ([Eval Reached.later; Eval Reached.no; Eval Reached.base;
        Eval Reached.no; Eval Reached.yes],
       Return (VBool true)).
Proof.
  destruct (Operator_eval_None (H:=literal_re) 0 Reached.objects Reached.base
              (Script.op Operator []) None eq_refl eq_refl) as [Hbase Hparent].
  split; [exact Hbase|]. split; [|split].
  - destruct (Hparent Reached.both
                (Script.op AND [Reached.yes; Reached.base; Reached.yes])
                [Reached.yes] [Reached.yes] [([Eval Reached.yes], VBool true)]
                eq_refl eq_refl) as [Hand _]; [by repeat constructor|].
    apply Hand; [done|by repeat constructor].
  - destruct (Hparent Reached.neither
                (Script.op OR [Reached.no; Reached.base; Reached.no])
                [Reached.no] [Reached.no] [([Eval Reached.no], VBool false)]
                eq_refl eq_refl) as [_ Hor]; [by repeat constructor|].
    destruct Hor as (Hnone & _); [done|by repeat constructor|].
    apply (Hnone [([Eval Reached.no], VBool false)]); by repeat constructor.
  - destruct (Hparent Reached.later
                (Script.op OR [Reached.no; Reached.base; Reached.no; Reached.yes])
                [Reached.no] [Reached.no; Reached.yes]
                [([Eval Reached.no], VBool false)]
                eq_refl eq_refl) as [_ Hor]; [by repeat constructor|].
    destruct Hor as (_ & Hfirst & _); [done|by repeat constructor|].
    apply (Hfirst [Reached.no] Reached.yes [] [([Eval Reached.no], VBool false)]
             [Eval Reached.yes] (VBool true));
      try reflexivity; by repeat constructor.
Defined.

(** ** [NAND] and [NOR] *)

Section Negations.
Variable call : oid → Run value.

Lemma NAND_eval_arity params :
  length params ≠ 2 →
  NAND_eval call params
  = raise (AssertionError "NAND only works with two Operator parameters").
Proof. intros Hlen. unfold NAND_eval. by rewrite bool_decide_eq_false_2. Qed.

Lemma NOR_eval_arity params :
  length params < 2 →
  NOR_eval call params
  = raise (AssertionError
             "NOR only works with two or more Operator parameters").
Proof.
  intros Hlen. unfold NOR_eval. rewrite bool_decide_eq_false_2; [done|lia].
Qed.

Lemma NOR_eval_loop params :
  2 ≤ length params → NOR_eval call params = NOR_loop call params.
Proof.
  intros Hlen. unfold NOR_eval. rewrite bool_decide_eq_true_2 by done.
  unfold assert. by rewrite ret_bind.
Qed.

(** On two parameters [NAND.eval] does what [AND.eval]'s loop does and
    negates the outcome. *)
Lemma NAND_eval_negated a b :
  NAND_eval call [a; b] = negated (AND_loop call [a; b]).
Proof.
  unfold NAND_eval, call_at, negated. cbn [AND_loop].
  rewrite bool_decide_eq_true_2 by done. unfold assert. rewrite ret_bind.
  cbn [lookup list_lookup].
  destruct (call a) as [ta [va| |]]; [|reflexivity..].
  rewrite !bind_Return. destruct (truthy va); cbn [negb].
  - destruct (call b) as [tb [vb| |]]; [|reflexivity..].
    rewrite !bind_Return. destruct (truthy vb); cbn;
      by rewrite ?app_nil_r.
  - cbn. by rewrite ?app_nil_r.
Qed.

(** The loop of [NOT] and [NOR] does what [OR.eval]'s loop does and
    negates the outcome. *)
Lemma NOR_loop_negated params :
  NOR_loop call params = negated (OR_loop call params).
Proof.
  induction params as [|p rest IH]; [reflexivity|]. cbn [NOR_loop OR_loop].
  destruct (call p) as [t [v| |]]; [|reflexivity..].
  rewrite !bind_Return. destruct (truthy v); [reflexivity|].
  rewrite IH. unfold negated, log_of, result_of. cbn [fst snd].
  by destruct (OR_loop call rest) as [? [?| |]].
Qed.

Lemma NOT_eval_negated c : NOT_eval call [c] = negated (call c).
Proof.
  unfold NOT_eval. cbn [length]. rewrite !bool_decide_eq_true_2 by lia.
  unfold assert. rewrite ret_bind. cbn [NOR_loop].
  destruct (call c) as [t [v| |]]; [|reflexivity..].
  rewrite bind_Return. unfold negated, log_of, result_of. cbn [fst snd].
  destruct (truthy v); cbn; by rewrite app_nil_r.
Qed.
End Negations.

Section NegatedOperators.
Context `{ReModule}.

(** X3.  [NAND.eval] fails its arity assertion unless it has exactly two
    parameters.  It calls the first; if that returns a falsy value it
    returns true without calling the second; otherwise it calls the second
    and returns the negation of its truth value.  An exception of the
    first parameter, or of the second when it is called, is raised. *)
Theorem NAND_eval_spec n s self node data :
  s !! self = Some node → cls node = NAND →
  (length (parameters node) ≠ 2 →
     eval (S n) s self data
     = ([Eval self],
        Raise (AssertionError "NAND only works with two Operator parameters")))
  ∧ (∀ c0 c1 t0 v0,
       parameters node = [c0; c1] →
       eval n s c0 data = (t0, Return v0) → truthy v0 = false →
       eval (S n) s self data = (Eval self :: t0, Return (VBool true)))
  ∧ (∀ c0 c1 t0 t1 v0 v1,
       parameters node = [c0; c1] →
       eval n s c0 data = (t0, Return v0) → truthy v0 = true →
       eval n s c1 data = (t1, Return v1) →
       eval (S n) s self data
       = (Eval self :: t0 ++ t1, Return (VBool (negb (truthy v1)))))
  ∧ (∀ c0 c1 t0 e,
       parameters node = [c0; c1] →
       eval n s c0 data = (t0, Raise e) →
       eval (S n) s self data = (Eval self :: t0, Raise e))
  ∧ (∀ c0 c1 t0 t1 v0 e,
       parameters node = [c0; c1] →
       eval n s c0 data = (t0, Return v0) → truthy v0 = true →
       eval n s c1 data = (t1, Raise e) →
       eval (S n) s self data = (Eval self :: t0 ++ t1, Raise e)).
Proof.
  intros Hnode Hcls.
  rewrite (eval_class _ _ _ _ _ _ Hnode Hcls). unfold dispatch.
  cbn [cls parameters]. repeat split.
  - intros Hlen. by rewrite NAND_eval_arity.
  - intros c0 c1 t0 v0 -> H0 Hv0. rewrite NAND_eval_negated.
    by rewrite (AND_loop_stops _ c0 [c1] t0 v0 H0 Hv0).
  - intros c0 c1 t0 t1 v0 v1 -> H0 Hv0 H1. rewrite NAND_eval_negated.
    cbn [AND_loop]. rewrite H0, bind_Return, Hv0. cbn [negb].
    rewrite H1, bind_Return. destruct (truthy v1); cbn;
      by rewrite ?app_nil_r.
  - intros c0 c1 t0 e -> H0. rewrite NAND_eval_negated.
    by rewrite (AND_loop_raises _ c0 [c1] t0 e H0).
  - intros c0 c1 t0 t1 v0 e -> H0 Hv0 H1. rewrite NAND_eval_negated.
    cbn [AND_loop]. rewrite H0, bind_Return, Hv0. cbn [negb].
    by rewrite H1.
Qed.

(** X4.  [NOR.eval] fails its arity assertion with fewer than two
    parameters.  With two or more it calls them from left to right: when
    all return falsy values it returns true; at the first that returns a
    truthy value it returns false, and at the first that raises it raises,
    and the parameters after that one are not called. *)
Theorem NOR_eval_spec n s self node data :
  s !! self = Some node → cls node = NOR →
  (length (parameters node) < 2 →
     eval (S n) s self data
     = ([Eval self],
        Raise (AssertionError
                 "NOR only works with two or more Operator parameters")))
  ∧ (∀ pre runs,
       2 ≤ length (parameters node) →
       all_return (λ p, eval n s p data) pre runs →
       Forall (λ r, truthy r.2 = false) runs →
       (parameters node = pre →
          eval (S n) s self data
          = (Eval self :: concat (fst <$> runs), Return (VBool true)))
       ∧ (∀ c post t v,
            parameters node = pre ++ c :: post →
            eval n s c data = (t, Return v) → truthy v = true →
            eval (S n) s self data
            = (Eval self :: concat (fst <$> runs) ++ t,
               Return (VBool false)))
       ∧ (∀ c post t e,
            parameters node = pre ++ c :: post →
            eval n s c data = (t, Raise e) →
            eval (S n) s self data
            = (Eval self :: concat (fst <$> runs) ++ t, Raise e))).
Proof.
  intros Hnode Hcls.
  rewrite (eval_class _ _ _ _ _ _ Hnode Hcls). unfold dispatch.
  cbn [cls parameters]. split.
  - intros Hlen. by rewrite NOR_eval_arity.
  - intros pre runs Hlen Hruns Hfalse. rewrite (NOR_eval_loop _ _ Hlen).
    pose proof (NOR_loop_prefix (λ p, eval n s p data) pre) as Hpre.
    split; [|split].
    + intros ->. rewrite <- (app_nil_r pre), (Hpre [] runs Hruns Hfalse).
      cbn. by rewrite app_nil_r.
    + intros c post t v -> Hc Hv. rewrite (Hpre _ runs Hruns Hfalse).
      by rewrite (NOR_loop_stops (λ p, eval n s p data) c post t v Hc Hv).
    + intros c post t e -> Hc. rewrite (Hpre _ runs Hruns Hfalse).
      by rewrite (NOR_loop_raises (λ p, eval n s p data) c post t e Hc).
Qed.

Lemma result_of_negated m :
  result_of (negated m)
  = match result_of m with
    | Return v => Return (VBool (negb (truthy v)))
    | Raise e => Raise e
    | OutOfFuel => OutOfFuel
    end.
Proof. reflexivity. Qed.

(** The result of a [NOT] over one operator [y], from the run of [y]. *)
Lemma NOT_of_result n s z nz y data :
  s !! z = Some nz → cls nz = NOT → parameters nz = [y] →
  result_of (eval (S (S n)) s z data)
  = result_of (negated (eval (S n) s y data)).
Proof.
  intros Hz Hcls Hps. rewrite (eval_class _ _ _ _ _ _ Hz Hcls).
  unfold dispatch. cbn [cls parameters]. rewrite Hps.
  by rewrite (NOT_eval_negated (λ p, eval (S n) s p data)).
Qed.

(** X5.  A [NAND] over two operators gives the result of a [NOT] over an
    [AND] over the same two operators, whatever the two operators do
    (return, raise, or recurse without end). *)
Theorem NAND_is_NOT_AND n s x nx y ny z nz data :
  s !! x = Some nx → cls nx = NAND →
  s !! y = Some ny → cls ny = AND →
  s !! z = Some nz → cls nz = NOT →
  length (parameters nx) = 2 →
  parameters ny = parameters nx → parameters nz = [y] →
  result_of (eval (S (S n)) s z data) = result_of (eval (S n) s x data).
Proof.
  intros Hx Hcx Hy Hcy Hz Hcz Hlen Hps Hpz.
  rewrite (NOT_of_result _ _ _ _ _ _ Hz Hcz Hpz).
  rewrite (eval_class _ _ _ _ _ _ Hy Hcy), (eval_class _ _ _ _ _ _ Hx Hcx).
  unfold dispatch. cbn [cls parameters]. rewrite Hps.
  destruct (parameters nx) as [|a [|b [|]]]; try done.
  by rewrite NAND_eval_negated.
Qed.

(** X6.  A [NOR] over two or more operators gives the result of a [NOT]
    over an [OR] over the same operators, whatever the operators do. *)
Theorem NOR_is_NOT_OR n s x nx y ny z nz data :
  s !! x = Some nx → cls nx = NOR →
  s !! y = Some ny → cls ny = OR →
  s !! z = Some nz → cls nz = NOT →
  2 ≤ length (parameters nx) →
  parameters ny = parameters nx → parameters nz = [y] →
  result_of (eval (S (S n)) s z data) = result_of (eval (S n) s x data).
Proof.
  intros Hx Hcx Hy Hcy Hz Hcz Hlen Hps Hpz.
  rewrite (NOT_of_result _ _ _ _ _ _ Hz Hcz Hpz).
  rewrite (eval_class _ _ _ _ _ _ Hy Hcy), (eval_class _ _ _ _ _ _ Hx Hcx).
  unfold dispatch. cbn [cls parameters]. rewrite Hps.
  by rewrite (NOR_eval_loop _ _ Hlen), NOR_loop_negated.
Qed.
End NegatedOperators.

Lemma AND_eval_spec_witness :
  eval (H:=literal_re) 2 Script.objects Script.test_and None
  = ([Eval Script.test_and; Eval Script.test_true; Eval Script.test_false],
     Return (VBool false))
  ∧ eval (H:=literal_re) 1 [Script.op AND []] 0 None
    = ([Eval 0], Return (VBool true)).
Proof.
  split.
  - assert (Hruns : all_return
              (λ p, eval (H:=literal_re) 1 Script.objects p None)
              [Script.test_true] [([Eval Script.test_true], VBool true)])
      by (repeat constructor).
    destruct (AND_eval_spec (H:=literal_re) 1 Script.objects Script.test_and
                (Script.op AND [Script.test_true; Script.test_false]) None
                [Script.test_true] [([Eval Script.test_true], VBool true)]
                eq_refl eq_refl Hruns) as (_ & Hstop & _);
      [by repeat constructor|].
    exact (Hstop Script.test_false [] [Eval Script.test_false] (VBool false)
             eq_refl eq_refl eq_refl).
  - destruct (AND_eval_spec (H:=literal_re) 0 [Script.op AND []] 0
                (Script.op AND []) None [] [] eq_refl eq_refl)
      as (Hall & _); [constructor|constructor|].
    exact (Hall eq_refl).
Defined.

Lemma OR_eval_spec_witness :
  eval (H:=literal_re) 2 Script.objects Script.test_or None
  = ([Eval Script.test_or; Eval Script.test_true], Return (VBool true))
  ∧ eval (H:=literal_re) 1 [Script.op OR []] 0 None
    = ([Eval 0], Return (VBool false)).
Proof.
  split.
  - destruct (OR_eval_spec (H:=literal_re) 1 Script.objects Script.test_or
                (Script.op OR [Script.test_true; Script.test_false]) None
                [] [] eq_refl eq_refl) as (_ & Hstop & _);
      [constructor|constructor|].
    exact (Hstop Script.test_true [Script.test_false]
             [Eval Script.test_true] (VBool true) eq_refl eq_refl eq_refl).
  - destruct (OR_eval_spec (H:=literal_re) 0 [Script.op OR []] 0
                (Script.op OR []) None [] [] eq_refl eq_refl)
      as (Hall & _); [constructor|constructor|].
    exact (Hall eq_refl).
Defined.

Lemma NAND_eval_spec_witness :
  eval (H:=literal_re) 2 Script.objects Script.test_nand1 None
  = ([Eval Script.test_nand1; Eval Script.test_true; Eval Script.test_true],
     Return (VBool false))
  ∧ eval (H:=literal_re) 2 Compose.objects Compose.nand None
    = ([Eval Compose.nand; Eval Compose.yes; Eval Compose.no],
       Return (VBool true)).
Proof.
  split.
  - destruct (NAND_eval_spec (H:=literal_re) 1 Script.objects Script.test_nand1
                (Script.op NAND [Script.test_true; Script.test_true]) None
                eq_refl eq_refl) as (_ & _ & Hboth & _).
    exact (Hboth Script.test_true Script.test_true [Eval Script.test_true]
             [Eval Script.test_true] (VBool true) (VBool true)
             eq_refl eq_refl eq_refl eq_refl).
  - destruct (NAND_eval_spec (H:=literal_re) 1 Compose.objects Compose.nand
                (Script.op NAND [Compose.yes; Compose.no]) None
                eq_refl eq_refl) as (_ & _ & Hboth & _).
    exact (Hboth Compose.yes Compose.no [Eval Compose.yes] [Eval Compose.no]
             (VBool true) (VBool false) eq_refl eq_refl eq_refl eq_refl).
Defined.

Lemma NOR_eval_spec_witness :
  eval (H:=literal_re) 2 Compose.objects Compose.nor None
  = ([Eval Compose.nor; Eval Compose.no; Eval Compose.no; Eval Compose.yes],
     Return (VBool false))
  ∧ eval (H:=literal_re) 1 [Script.op NOR [0]] 0 None
    = ([Eval 0],
       Raise (AssertionError
                "NOR only works with two or more Operator parameters")).
Proof.
  split.
  - destruct (NOR_eval_spec (H:=literal_re) 1 Compose.objects Compose.nor
                (Script.op NOR [Compose.no; Compose.no; Compose.yes; Compose.no])
                None eq_refl eq_refl) as (_ & Hloop).
    destruct (Hloop [Compose.no; Compose.no]
                [([Eval Compose.no], VBool false);
                 ([Eval Compose.no], VBool false)]) as (_ & Hstop & _);
      [by compute; lia|by repeat constructor|by repeat constructor|].
    exact (Hstop Compose.yes [Compose.no] [Eval Compose.yes] (VBool true)
             eq_refl eq_refl eq_refl).
  - destruct (NOR_eval_spec (H:=literal_re) 0 [Script.op NOR [0]] 0
                (Script.op NOR [0]) None eq_refl eq_refl) as (Harity & _).
    apply Harity. compute. lia.
Defined.

Lemma NAND_is_NOT_AND_witness :
  result_of (eval (H:=literal_re) 3 Compose.objects Compose.not_and None)
  = result_of (eval (H:=literal_re) 2 Compose.objects Compose.nand None).
Proof.
  exact (NAND_is_NOT_AND (H:=literal_re) 1 Compose.objects
           Compose.nand (Script.op NAND [Compose.yes; Compose.no])
           Compose.and (Script.op AND [Compose.yes; Compose.no])
           Compose.not_and (Script.op NOT [Compose.and]) None
           eq_refl eq_refl eq_refl eq_refl eq_refl eq_refl
           eq_refl eq_refl eq_refl).
Defined.

Lemma NOR_is_NOT_OR_witness :
  result_of (eval (H:=literal_re) 3 Compose.objects Compose.not_or None)
  = result_of (eval (H:=literal_re) 2 Compose.objects Compose.nor None).
Proof.
  apply (NOR_is_NOT_OR (H:=literal_re) 1 Compose.objects
           Compose.nor
           (Script.op NOR [Compose.no; Compose.no; Compose.yes; Compose.no])
           Compose.or
           (Script.op OR [Compose.no; Compose.no; Compose.yes; Compose.no])
           Compose.not_or (Script.op NOT [Compose.or]) None);
    try reflexivity.
  compute. lia.
Defined.

(** ** Cycles and DAGs *)

Section Cycles.
Context `{ReModule}.

(** An [AND], [OR] or [NOT] whose only parameter does not finish does not
    finish. *)
Lemma dispatch_single_unfinished call node c data :
  cls node = AND ∨ cls node = OR ∨ cls node = NOT →
  parameters node = [c] →
  result_of (call c) = OutOfFuel →
  result_of (dispatch call node data) = OutOfFuel.
Proof.
  intros Hcls Hps Hc. unfold dispatch. rewrite Hps.
  destruct (call c) as [t r] eqn:Hrun. cbn in Hc. subst r.
  destruct Hcls as [-> | [-> | ->]].
  - cbn [AND_loop]. by rewrite Hrun, bind_OutOfFuel.
  - cbn [OR_loop]. by rewrite Hrun, bind_OutOfFuel.
  - unfold NOT_eval. cbn [length]. rewrite !bool_decide_eq_true_2 by lia.
    unfold assert. rewrite ret_bind. cbn [NOR_loop].
    by rewrite Hrun, bind_OutOfFuel.
Qed.

(** X7.  [addParameter] only refuses an operator as its own parameter:
    two distinct [AND], [OR] or [NOT] operators without parameters can be
    made each other's parameter, and after that the evaluation of the
    first never finishes, however much fuel it is given (in the program:
    unbounded recursion). *)
Theorem indirect_cycle_never_finishes (s : list Node) a b na nb data :
  a ≠ b → s !! a = Some na → s !! b = Some nb →
  cls na = AND ∨ cls na = OR ∨ cls na = NOT →
  cls nb = AND ∨ cls nb = OR ∨ cls nb = NOT →
  parameters na = [] → parameters nb = [] →
  ∃ s1 s2,
    addParameter s a b = (s1, ret tt)
    ∧ addParameter s1 b a = (s2, ret tt)
    ∧ ∀ n, result_of (eval n s2 a data) = OutOfFuel.
Proof.
  intros Hne Ha Hb Hca Hcb Hpa Hpb.
  exists (addOperator s a b), (addOperator (addOperator s a b) b a).
  unfold addParameter. rewrite !decide_False by congruence.
  split; [done|]. split; [done|].
  set (s2 := addOperator (addOperator s a b) b a).
  assert (Ha2 : s2 !! a = Some (set_parameters [b] na)).
  { unfold s2, addOperator. rewrite list_lookup_alter_ne by congruence.
    rewrite list_lookup_alter_eq, Ha. cbn. by rewrite Hpa. }
  assert (Hb2 : s2 !! b = Some (set_parameters [a] nb)).
  { unfold s2, addOperator. rewrite list_lookup_alter_eq.
    rewrite list_lookup_alter_ne by congruence. rewrite Hb. cbn.
    by rewrite Hpb. }
  assert (Hboth : ∀ n, result_of (eval n s2 a data) = OutOfFuel
                       ∧ result_of (eval n s2 b data) = OutOfFuel).
  { induction n as [|n [IHa IHb]]; [done|].
    rewrite (eval_node _ _ _ _ _ Ha2), (eval_node _ _ _ _ _ Hb2).
    split; unfold result_of at 1; cbn [snd].
    - by apply dispatch_single_unfinished with (c := b).
    - by apply dispatch_single_unfinished with (c := a). }
  intros n. apply Hboth.
Qed.

(** X8.  On a store whose operators can be ranked above their parameters
    (a DAG) the evaluation of every operator finishes: there is one run,
    ending in a value or an exception, that [eval] gives with any fuel
    above the operator's rank. *)
Theorem eval_total_on_ranked (s : list Node) rank self data :
  ranked s rank →
  ∃ t r,
    r ≠ OutOfFuel
    ∧ ∀ n, rank self < n → eval n s self data = (t, r).
Proof.
  intros Hr.
  pose proof (eval_terminates s rank (S (rank self)) self data Hr) as Hfin.
  specialize (Hfin (Nat.lt_succ_diag_r _)).
  destruct (eval (S (rank self)) s self data) as [t r] eqn:Hrun.
  exists t, r. split; [exact Hfin|]. intros n Hn.
  rewrite <- Hrun. apply (eval_fuel_mono (S (rank self)) n); [lia|].
  by rewrite Hrun.
Qed.
End Cycles.

Lemma indirect_cycle_never_finishes_witness :
  ∃ s1 s2,
    addParameter [Script.op AND []; Script.op OR []] 0 1 = (s1, ret tt)
    ∧ addParameter s1 1 0 = (s2, ret tt)
    ∧ ∀ n, result_of (eval (H:=literal_re) n s2 0 None) = OutOfFuel.
Proof.
  apply (indirect_cycle_never_finishes (H:=literal_re)
           [Script.op AND []; Script.op OR []] 0 1
           (Script.op AND []) (Script.op OR []) None);
    try reflexivity; [lia|by left|by right; left].
Defined.

Lemma Abstract_ranked : ranked Abstract.objects (λ i, i).
Proof.
  intros self node param Hnode Hparam.
  do 5 (destruct self as [|self];
        [injection Hnode as <-; cbn in Hparam;
         repeat (apply elem_of_cons in Hparam as [->|Hparam];
                 [cbv; lia|]);
         by apply not_elem_of_nil in Hparam|]).
  done.
Qed.

Lemma eval_total_on_ranked_witness :
  ∃ t r,
    r ≠ OutOfFuel
    ∧ ∀ n, Abstract.all < n →
        eval (H:=literal_re) n Abstract.objects Abstract.all None = (t, r).
Proof.
  exact (eval_total_on_ranked (H:=literal_re) Abstract.objects (λ i, i)
           Abstract.all None Abstract_ranked).
Defined.

(** ** The engine's cache and its operators *)

Section EngineFacts.
Context `{ReModule}.

Lemma re_compile_valid p ic :
  re_valid p = true →
  re_compile p ic
  = ([Compile p ic], Return {| rx_pattern := p; rx_ignorecase := ic |}).
Proof. intros Hv. unfold re_compile. rewrite Hv. reflexivity. Qed.

Lemma re_compile_invalid p ic :
  re_valid p = false → re_compile p ic = ([Compile p ic], Raise re_error).
Proof. intros Hv. unfold re_compile. rewrite Hv. reflexivity. Qed.

(** X9.  [cache_regex] with a matcher object stores that object under the
    pattern without compiling anything; without one it compiles the
    pattern with no flags, once, and stores the result.  Either way the
    entries of other patterns stay as they were, and any [RegexOp] with
    that pattern evaluated with the engine afterwards searches with the
    stored matcher, also when that matcher was made from another pattern
    or with other flags.  When the pattern does not compile the call
    raises and the engine is unchanged. *)
Theorem cache_regex_spec (self : Engine) (p : string) (obj : option Regex) :
  (is_Some obj ∨ re_valid p = true →
   ∃ self',
     cache_regex self p obj
     = (self',
        (if obj is Some _ then [] else [Compile p false], Return tt))
     ∧ re_cache self' !! p
       = Some (default {| rx_pattern := p; rx_ignorecase := false |} obj)
     ∧ (∀ q, q ≠ p → re_cache self' !! q = re_cache self !! q)
     ∧ ∀ node data,
         pattern node = p →
         RegexOp_eval node data (Some self')
         = (Some self',
            search_with
              (default {| rx_pattern := p; rx_ignorecase := false |} obj)
              data))
  ∧ (obj = None → re_valid p = false →
     cache_regex self p obj = (self, ([Compile p false], Raise re_error))).
Proof.
  split.
  - intros Hok.
    exists (re_cache_set self p
              (default {| rx_pattern := p; rx_ignorecase := false |} obj)).
    assert (Hlook : re_cache
              (re_cache_set self p
                 (default {| rx_pattern := p; rx_ignorecase := false |} obj))
              !! p
            = Some (default {| rx_pattern := p; rx_ignorecase := false |} obj))
      by apply lookup_insert_eq.
    split; [|split; [exact Hlook|split]].
    + unfold cache_regex. destruct obj as [o|]; [done|].
      destruct Hok as [[? [=]]|Hv]. by rewrite (re_compile_valid _ _ Hv).
    + intros q Hq. cbn. by rewrite lookup_insert_ne.
    + intros node data <-. by apply RegexOp_eval_hit.
  - intros -> Hv. unfold cache_regex. by rewrite (re_compile_invalid _ _ Hv).
Qed.

(** X10.  [RegexOp.eval] with an engine never drops or replaces an entry
    of the cache: every entry is still there afterwards, only the
    operator's own pattern can have been added, and the engine's other
    attributes are untouched.  Without an engine there is no engine
    afterwards either. *)
Theorem RegexOp_eval_keeps_cache (self : Node) data (e : Engine) :
  (∃ e',
     (RegexOp_eval self data (Some e)).1 = Some e'
     ∧ (∀ q rx, re_cache e !! q = Some rx → re_cache e' !! q = Some rx)
     ∧ (∀ q, q ≠ pattern self → re_cache e' !! q = re_cache e !! q)
     ∧ debuglevel e' = debuglevel e
     ∧ dbconnection e' = dbconnection e)
  ∧ (RegexOp_eval self data None).1 = None.
Proof.
  split; [|by rewrite RegexOp_eval_no_engine].
  destruct (re_cache e !! pattern self) as [rx|] eqn:Hc.
  - exists e. rewrite (RegexOp_eval_hit _ _ _ _ Hc). by repeat split.
  - destruct (re_valid (pattern self)) eqn:Hv.
    + exists (re_cache_set e (pattern self) (own_matcher self)).
      rewrite (RegexOp_eval_miss _ _ _ Hc Hv). repeat split; try done.
      * intros q rx Hq. cbn. rewrite lookup_insert_ne; [done|].
        intros <-. congruence.
      * intros q Hq. cbn. by rewrite lookup_insert_ne.
    + exists e. rewrite (RegexOp_eval_miss_invalid _ _ _ Hc Hv).
      by repeat split.
Qed.

Lemma new_op_store (self : Engine) (s : list Node) (node : Node) :
  alter (set_connection (dbconnection self)) (length s) (s ++ [node])
  = s ++ [made self node].
Proof.
  apply list_eq. intros i. destruct (decide (i = length s)) as [->|Hne].
  - rewrite list_lookup_alter_eq, !lookup_app_r by done.
    by rewrite Nat.sub_diag.
  - rewrite list_lookup_alter_ne by congruence.
    destruct (decide (i < length s)) as [Hlt|Hge].
    + by rewrite !lookup_app_l.
    + rewrite !(proj2 (lookup_ge_None _ _)); [done|..];
        rewrite length_app; cbn; lia.
Qed.

Lemma new_op_run (self : Engine) (s : list Node) c kw node :
  construct c kw = Some node →
  new_op self s (Some c) kw
  = match decide (c = RegexOp), kw_pattern kw with
    | left _, Some p =>
        ((cache_regex self p None).1, s ++ [made self node],
         (cache_regex self p None).2 ≫= λ _, ret (length s))
    | _, _ => (self, s ++ [made self node], ret (length s))
    end.
Proof.
  intros Hc. unfold new_op. rewrite Hc. cbv zeta. rewrite new_op_store.
  destruct (decide (c = RegexOp)), (kw_pattern kw); try done.
  by destruct (cache_regex self s0 None).
Qed.

Lemma new_op_store_of (self : Engine) (s : list Node) c kw node :
  construct c kw = Some node →
  (new_op self s (Some c) kw).1.2 = s ++ [made self node].
Proof.
  intros Hc. rewrite (new_op_run _ _ _ _ _ Hc).
  by destruct (decide (c = RegexOp)), (kw_pattern kw).
Qed.

Lemma new_op_returns_fresh (self : Engine) (s : list Node) c kw op :
  result_of (new_op self s (Some c) kw).2 = Return op → op = length s.
Proof.
  unfold new_op. destruct (construct c kw) as [node|]; [|done]. cbv zeta.
  destruct (decide (c = RegexOp)), (kw_pattern kw) as [p|];
    try (cbn; by intros [= <-]).
  unfold cache_regex, re_compile. destruct (re_valid p); cbn; [|done].
  by intros [= <-].
Qed.

Lemma new_op_cache_frame (self : Engine) (s : list Node) c kw q :
  c ≠ RegexOp ∨ kw_pattern kw ≠ Some q →
  re_cache (new_op self s (Some c) kw).1.1 !! q = re_cache self !! q.
Proof.
  intros Hq. unfold new_op. destruct (construct c kw) as [node|]; [|done].
  cbv zeta.
  destruct (decide (c = RegexOp)) as [->|Hne], (kw_pattern kw) as [p|];
    try done.
  destruct Hq as [Hq|Hq]; [done|].
  unfold cache_regex, re_compile. destruct (re_valid p); cbn; [|done].
  rewrite lookup_insert_ne; [done|]. intros <-. by apply Hq.
Qed.

Lemma construct_fields c kw node :
  construct c kw = Some node →
  cls node = c ∧ name node = kw_name kw ∧ parameters node = []
  ∧ connection node = None
  ∧ case_sensitive node = default false (kw_case_sensitive kw)
  ∧ (c = RegexOp → kw_pattern kw = Some (pattern node))
  ∧ (c ≠ RegexOp → kw_pattern kw = None).
Proof.
  unfold construct. intros Hc.
  destruct c, (kw_pattern kw), (kw_case_sensitive kw);
    try discriminate Hc; injection Hc as <-; by repeat split.
Qed.

(** X11.  [Engine.new_op] never touches the operators that exist: they
    keep their ids and their contents, and at most one operator is added.
    Without a class it raises and changes nothing.  When it returns, the
    id it returns is that of the one new operator, which has the class and
    the name asked for, no parameters, and the engine's connection.  The
    cache can change at the pattern passed for a [RegexOp] only. *)
Theorem new_op_spec (self : Engine) (s : list Node) (optype : option OpClass)
    (kw : Kwargs) :
  (optype = None →
     new_op self s optype kw
     = (self, s, raise (ValueError "Engine.new_op(): optype can't be None.")))
  ∧ (∀ i node, s !! i = Some node → (new_op self s optype kw).1.2 !! i = Some node)
  ∧ length (new_op self s optype kw).1.2 ≤ S (length s)
  ∧ (∀ op, result_of (new_op self s optype kw).2 = Return op →
       op = length s
       ∧ ∃ node,
           (new_op self s optype kw).1.2 = s ++ [node]
           ∧ Some (cls node) = optype ∧ name node = kw_name kw
           ∧ parameters node = []
           ∧ connection node = dbconnection self)
  ∧ (∀ q, optype ≠ Some RegexOp ∨ kw_pattern kw ≠ Some q →
       re_cache (new_op self s optype kw).1.1 !! q = re_cache self !! q).
Proof.
  destruct optype as [c|].
  2:{ cbn. split; [done|]. split; [done|]. split; [lia|].
      split; [by intros op [=]|done]. }
  split; [done|].
  destruct (construct c kw) as [node|] eqn:Hc.
  2:{ unfold new_op. rewrite Hc. cbn. split; [done|]. split; [lia|].
      split; [by intros op [=]|done]. }
  destruct (construct_fields _ _ _ Hc)
    as (Hcls & Hname & Hps & Hconn & _ & Hpat & Hnopat).
  rewrite (new_op_store_of _ _ _ _ _ Hc).
  split; [intros i n0 Hi; by apply lookup_app_l_Some|].
  split; [rewrite length_app; cbn; lia|]. split.
  - intros op Hop. split; [by apply (new_op_returns_fresh _ _ _ _ _ Hop)|].
    exists (made self node). cbn. by rewrite Hcls, Hname, Hps.
  - intros q Hq. apply new_op_cache_frame.
    destruct Hq as [Hq|Hq]; [left; congruence|by right].
Qed.
End EngineFacts.

Section NamesAndOrphans.
Context `{ReModule}.

(** X12.  [Engine.new_op] creates the operator before it warms the cache:
    for a [RegexOp] whose pattern does not compile the call raises the
    compile error and yet the new operator is in the store; the engine is
    unchanged. *)
Theorem new_op_invalid_pattern (self : Engine) (s : list Node) (kw : Kwargs)
    (p : string) :
  kw_pattern kw = Some p → re_valid p = false →
  ∃ node,
    new_op self s (Some RegexOp) kw
    = (self, s ++ [node], ([Compile p false], Raise re_error))
    ∧ cls node = RegexOp ∧ pattern node = p ∧ name node = kw_name kw.
Proof.
  intros Hp Hv.
  assert (Hc : construct RegexOp kw
               = Some {| cls := RegexOp; name := kw_name kw; parameters := [];
                         pattern := p;
                         case_sensitive := default false (kw_case_sensitive kw);
                         connection := None |})
    by (unfold construct; by rewrite Hp).
  eexists. rewrite (new_op_run _ _ _ _ _ Hc), Hp. cbn [decide decide_rel].
  rewrite decide_True by done.
  unfold cache_regex. rewrite (re_compile_invalid _ _ Hv). cbn [fst snd].
  split; [reflexivity|]. by repeat split.
Qed.

Lemma filter_ext_elem {A} (P Q : A → Prop)
    `{!∀ x, Decision (P x)} `{!∀ x, Decision (Q x)} (l : list A) :
  (∀ x, x ∈ l → P x ↔ Q x) → filter P l = filter Q l.
Proof.
  induction l as [|x l IH]; intros Hext; [done|].
  rewrite !filter_cons, IH by (intros y Hy; apply Hext; by right).
  destruct (decide (P x)) as [HP|HP], (decide (Q x)) as [HQ|HQ]; try done.
  - destruct HQ. by apply (Hext x); [left|].
  - destruct HP. by apply (Hext x); [left|].
Qed.

Lemma selectBy_name_snoc (s : list Node) (node : Node) nm :
  selectBy_name (s ++ [node]) nm
  = selectBy_name s nm ++ (if decide (name node = nm) then [length s] else []).
Proof.
  unfold selectBy_name. rewrite length_app. cbn [length].
  rewrite Nat.add_1_r, seq_S, filter_app. f_equal.
  - apply filter_ext_elem. intros i Hi. apply elem_of_seq in Hi.
    rewrite lookup_app_l by lia. done.
  - cbn [Nat.add]. rewrite filter_cons, filter_nil.
    rewrite lookup_app_r, Nat.sub_diag by done. cbn.
    destruct (decide (name node = nm)) as [->|Hne].
    + by rewrite decide_True.
    + rewrite decide_False; [done|]. by intros [= ?].
Qed.

(** X13.  Looking an operator up by the name it was just created with
    finds it exactly when no operator had that name before; when one had,
    the lookup fails its assertion, because [new_op] adds the second
    operator of the name without complaint. *)
Theorem get_op_after_new_op (self : Engine) (s : list Node) c kw op :
  result_of (new_op self s (Some c) kw).2 = Return op →
  (selectBy_name s (kw_name kw) = [] →
     get_op (new_op self s (Some c) kw).1.2 (kw_name kw) = ret op)
  ∧ (selectBy_name s (kw_name kw) ≠ [] →
       get_op (new_op self s (Some c) kw).1.2 (kw_name kw)
       = raise get_op_error).
Proof.
  intros Hop.
  assert (op = length s) as -> by apply (new_op_returns_fresh _ _ _ _ _ Hop).
  destruct (construct c kw) as [node|] eqn:Hc.
  2:{ unfold new_op in Hop. by rewrite Hc in Hop. }
  destruct (construct_fields _ _ _ Hc) as (_ & Hname & _).
  rewrite (new_op_store_of _ _ _ _ _ Hc). split.
  - intros Hnone. apply get_op_one. rewrite selectBy_name_snoc.
    cbn [made set_connection name]. rewrite decide_True by done.
    by rewrite Hnone.
  - intros Hsome. apply get_op_not_one. rewrite selectBy_name_snoc.
    cbn [made set_connection name]. rewrite decide_True by done.
    rewrite length_app. cbn.
    destruct (selectBy_name s (kw_name kw)); [done|cbn; lia].
Qed.
End NamesAndOrphans.

(** ** [compound_regex_rule] *)

Section BuilderFacts.
Context `{ReModule}.

Lemma new_rule_run (self : Engine) (s : list Node) p :
  re_valid p = true →
  new_op_cmd (Some RegexOp)
    {| kw_name := None; kw_pattern := Some p; kw_case_sensitive := None |}
    (self, s)
  = ((re_cache_set self p {| rx_pattern := p; rx_ignorecase := false |},
      s ++ [rule_for self p]),
     ([Compile p false], Return (length s))).
Proof.
  intros Hv. unfold new_op_cmd.
  rewrite (new_op_run self s RegexOp
             {| kw_name := None; kw_pattern := Some p;
                kw_case_sensitive := None |}
             {| cls := RegexOp; name := None; parameters := []; pattern := p;
                case_sensitive := false; connection := None |} eq_refl).
  cbn [kw_pattern]. rewrite decide_True by done.
  unfold cache_regex. rewrite (re_compile_valid _ _ Hv). cbn [fst snd].
  by rewrite bind_Return.
Qed.

Lemma new_rule_invalid (self : Engine) (s : list Node) p :
  re_valid p = false →
  new_op_cmd (Some RegexOp)
    {| kw_name := None; kw_pattern := Some p; kw_case_sensitive := None |}
    (self, s)
  = ((self, s ++ [rule_for self p]), ([Compile p false], Raise re_error)).
Proof.
  intros Hv. unfold new_op_cmd.
  rewrite (new_op_run self s RegexOp
             {| kw_name := None; kw_pattern := Some p;
                kw_case_sensitive := None |}
             {| cls := RegexOp; name := None; parameters := []; pattern := p;
                case_sensitive := false; connection := None |} eq_refl).
  cbn [kw_pattern]. rewrite decide_True by done.
  unfold cache_regex. by rewrite (re_compile_invalid _ _ Hv).
Qed.

Lemma with_cache_same (self : Engine) : with_cache self (re_cache self) = self.
Proof. by destruct self. Qed.

Lemma set_parameters_same (node : Node) :
  set_parameters (parameters node) node = node.
Proof. by destruct node. Qed.

Lemma alter_root (f : Node → Node) pre rootnode tail :
  alter f (length pre) (pre ++ rootnode :: tail) = pre ++ f rootnode :: tail.
Proof.
  replace (length pre) with (length pre + 0) by lia.
  by rewrite alter_app_r.
Qed.

Lemma cmd_bind_ret {A} (m : Cmd A) w : cmd_bind m cmd_ret w = m w.
Proof.
  unfold cmd_bind, cmd_ret. destruct (m w) as [w1 [log [a| |]]]; try done.
  cbn. by rewrite app_nil_r.
Qed.

Lemma cmd_bind_ext {A B} (m : Cmd A) (k k' : A → Cmd B) w :
  (∀ a w', k a w' = k' a w') → cmd_bind m k w = cmd_bind m k' w.
Proof.
  intros Hk. unfold cmd_bind.
  destruct (m w) as [w1 [log [a| |]]]; try done. by rewrite Hk.
Qed.

Lemma cmd_bind_assoc {A B C} (m : Cmd A) (k : A → Cmd B) (k' : B → Cmd C) w :
  cmd_bind (cmd_bind m k) k' w = cmd_bind m (λ a, cmd_bind (k a) k') w.
Proof.
  unfold cmd_bind. destruct (m w) as [w1 [log [a| |]]]; try done.
  destruct (k a w1) as [w2 [log2 [b| |]]]; try done.
  destruct (k' b w2) as [w3 [log3 r]]. by rewrite app_assoc.
Qed.

Lemma cmd_bind_Return {A B} (m : Cmd A) (k : A → Cmd B) w w1 log a :
  m w = (w1, (log, Return a)) →
  cmd_bind m k w = ((k a w1).1, (log ++ log_of (k a w1).2, result_of (k a w1).2)).
Proof.
  intros Hm. unfold cmd_bind. rewrite Hm.
  by destruct (k a w1) as [w2 [log2 r]].
Qed.

Lemma cmd_bind_Raise {A B} (m : Cmd A) (k : A → Cmd B) w w1 log e :
  m w = (w1, (log, Raise e)) → cmd_bind m k w = (w1, (log, Raise e)).
Proof. intros Hm. unfold cmd_bind. by rewrite Hm. Qed.

Lemma cmd_ret_bind {A B} (a : A) (k : A → Cmd B) w :
  cmd_bind (cmd_ret a) k w = k a w.
Proof. unfold cmd_bind, cmd_ret. cbn. by destruct (k a w) as [w2 [log r]]. Qed.

Lemma add_rules_app root l1 l2 w :
  add_rules root (l1 ++ l2) w
  = cmd_bind (add_rules root l1) (λ _, add_rules root l2) w.
Proof.
  revert w. induction l1 as [|p l1 IH]; intros w.
  - cbn [app add_rules]. by rewrite cmd_ret_bind.
  - cbn [app add_rules]. rewrite cmd_bind_assoc.
    apply cmd_bind_ext. intros rule w1. rewrite cmd_bind_assoc.
    apply cmd_bind_ext. intros _ w2. apply IH.
Qed.

Lemma add_rules_run patterns :
  ∀ (self : Engine) (pre : list Node) (rootnode : Node) (children : list Node),
    Forall (λ p, re_valid p = true) patterns →
    add_rules (length pre) patterns (self, pre ++ rootnode :: children)
    = ((with_cache self (warmed (re_cache self) patterns),
        pre
        ++ set_parameters
             (parameters rootnode
              ++ seq (length pre + S (length children)) (length patterns))
             rootnode
        :: children ++ (rule_for self <$> patterns)),
       ((λ p, Compile p false) <$> patterns, Return tt)).
Proof.
  induction patterns as [|p rest IH]; intros self pre rootnode children Hv.
  - cbn. by rewrite with_cache_same, !app_nil_r, set_parameters_same.
  - apply Forall_cons in Hv as [Hp Hrest]. cbn [add_rules]. unfold cmd_bind.
    rewrite (new_rule_run _ _ _ Hp).
    unfold addParameter_cmd, addParameter.
    rewrite decide_False by (rewrite length_app; cbn; lia).
    unfold addOperator.
    rewrite <- (app_assoc pre), <- app_comm_cons, alter_root.
    cbn [ret]. rewrite (IH _ pre _ (children ++ [rule_for self p]) Hrest).
    cbn [re_cache re_cache_set dbconnection debuglevel warmed foldl
         parameters set_parameters fmap list_fmap length].
    rewrite !length_app. cbn [length].
    f_equal. f_equal. f_equal. f_equal.
    + unfold set_parameters. cbn. f_equal. rewrite <- app_assoc. f_equal.
      cbn [app seq]. f_equal. f_equal. lia.
    + by rewrite <- app_assoc.
Qed.
End BuilderFacts.

Section BuilderTheorems.
Context `{ReModule}.

Lemma new_root_run (self : Engine) (s : list Node) c nm :
  c ≠ RegexOp →
  new_op_cmd (Some c)
    {| kw_name := nm; kw_pattern := None; kw_case_sensitive := None |}
    (self, s)
  = ((self, s ++ [root_for self c nm []]), ret (length s)).
Proof.
  intros Hc. unfold new_op_cmd.
  rewrite (new_op_run self s c
             {| kw_name := nm; kw_pattern := None; kw_case_sensitive := None |}
             {| cls := c; name := nm; parameters := []; pattern := "";
                case_sensitive := false; connection := None |})
    by by destruct c.
  cbn [kw_pattern]. by destruct (decide (c = RegexOp)).
Qed.

Lemma compound_regex_rule_run (self : Engine) (s : list Node) c
    (patterns : list string) (nm : option string) :
  c ≠ RegexOp → Forall (λ p, re_valid p = true) patterns →
  compound_regex_rule (Some c) (Some patterns) nm (self, s)
  = ((with_cache self (warmed (re_cache self) patterns),
      s ++ root_for self c nm (seq (S (length s)) (length patterns))
        :: (rule_for self <$> patterns)),
     ((λ p, Compile p false) <$> patterns, Return (length s))).
Proof.
  intros Hc Hv. unfold compound_regex_rule.
  rewrite (cmd_bind_Return _ _ _ _ _ _ (new_root_run self s c nm Hc)).
  pose proof (add_rules_run patterns self s (root_for self c nm []) [] Hv)
    as Hrules.
  rewrite (cmd_bind_Return _ _ _ _ _ _ Hrules).
  cbn. by rewrite Nat.add_1_r, !app_nil_r.
Qed.

(** X14.  For a class other than [RegexOp] and patterns that all compile,
    [compound_regex_rule] returns the id of a new root of that class and
    name, followed in the store by one new case-insensitive [RegexOp] per
    pattern, in the order of the patterns; the root's parameters are
    exactly these operators in that order, the operators that existed are
    untouched, each pattern was compiled once without flags, and the
    cache holds those case-sensitive matchers. *)
Theorem compound_regex_rule_builds (self : Engine) (s : list Node) c
    (patterns : list string) (nm : option string) :
  c ≠ RegexOp → Forall (λ p, re_valid p = true) patterns →
  compound_regex_rule (Some c) (Some patterns) nm (self, s)
  = ((with_cache self (warmed (re_cache self) patterns),
      s ++ root_for self c nm (seq (S (length s)) (length patterns))
        :: (rule_for self <$> patterns)),
     ((λ p, Compile p false) <$> patterns, Return (length s))).
Proof. apply compound_regex_rule_run. Qed.

(** X15.  [compound_regex_rule] is not all-or-nothing.  Without a class it
    raises before anything is created.  Without patterns it raises a
    [TypeError] after the root was created.  At the first pattern that
    does not compile it raises the compile error, and the store then holds
    the root with the rules of the patterns before it and, unlinked, the
    operator made for the bad pattern; the cache holds the patterns
    before it. *)
Theorem compound_regex_rule_partial (self : Engine) (s : list Node)
    (nm : option string) :
  (∀ patterns,
     compound_regex_rule None patterns nm (self, s)
     = ((self, s),
        raise (ValueError "Engine.new_op(): optype can't be None.")))
  ∧ (∀ c, c ≠ RegexOp →
       compound_regex_rule (Some c) None nm (self, s)
       = ((self, s ++ [root_for self c nm []]), raise TypeError))
  ∧ (∀ c good bad rest,
       c ≠ RegexOp →
       Forall (λ p, re_valid p = true) good → re_valid bad = false →
       compound_regex_rule (Some c) (Some (good ++ bad :: rest)) nm (self, s)
       = ((with_cache self (warmed (re_cache self) good),
           s ++ root_for self c nm (seq (S (length s)) (length good))
             :: (rule_for self <$> good) ++ [rule_for self bad]),
          (((λ p, Compile p false) <$> good) ++ [Compile bad false],
           Raise re_error))).
Proof.
  split; [done|]. split.
  - intros c Hc. unfold compound_regex_rule.
    by rewrite (cmd_bind_Return _ _ _ _ _ _ (new_root_run self s c nm Hc)).
  - intros c good bad rest Hc Hgood Hbad. unfold compound_regex_rule.
    rewrite (cmd_bind_Return _ _ _ _ _ _ (new_root_run self s c nm Hc)).
    pose proof (add_rules_run good self s (root_for self c nm []) [] Hgood)
      as Hrules.
    assert (Hbadrun :
      add_rules (length s) (good ++ bad :: rest)
        (self, s ++ [root_for self c nm []])
      = ((with_cache self (warmed (re_cache self) good),
          s ++ root_for self c nm (seq (S (length s)) (length good))
            :: (rule_for self <$> good) ++ [rule_for self bad]),
         (((λ p, Compile p false) <$> good) ++ [Compile bad false],
          Raise re_error))).
    { rewrite add_rules_app.
      rewrite (cmd_bind_Return _ _ _ _ _ _ Hrules).
      match goal with
      | |- context [add_rules ?root (bad :: rest) (?e1, ?s1)] =>
          assert (Hstop : add_rules root (bad :: rest) (e1, s1)
                          = ((e1, s1 ++ [rule_for e1 bad]),
                             ([Compile bad false], Raise re_error)))
            by (cbn [add_rules]; apply cmd_bind_Raise;
                by apply new_rule_invalid);
          rewrite Hstop
      end.
      cbn. by rewrite Nat.add_1_r, <- app_assoc. }
    by rewrite (cmd_bind_Raise _ _ _ _ _ _ Hbadrun).
Qed.
End BuilderTheorems.

Section BuiltRuleEval.
Context `{ReModule}.

Lemma search_with_found rx text :
  search_with rx (Some text) = ret (VBool (found rx text)).
Proof.
  unfold search_with, Regex_search, found. rewrite ret_bind.
  by destruct (find _ _).
Qed.

Lemma warmed_lookup patterns :
  ∀ (cache : gmap string Regex) p,
    p ∈ patterns
    ∨ cache !! p = Some {| rx_pattern := p; rx_ignorecase := false |} →
    warmed cache patterns !! p
    = Some {| rx_pattern := p; rx_ignorecase := false |}.
Proof.
  induction patterns as [|q rest IH]; intros cache p Hp.
  - destruct Hp as [Hp|Hp]; [by apply not_elem_of_nil in Hp|done].
  - cbn [warmed foldl]. apply IH.
    destruct (decide (p = q)) as [->|Hne].
    + right. apply lookup_insert_eq.
    + destruct Hp as [Hp|Hp].
      * left. apply elem_of_cons in Hp as [?|?]; [done|done].
      * right. by rewrite lookup_insert_ne.
Qed.

Section Results.
Variable call : oid → Run value.

Lemma OR_loop_result params runs :
  all_return call params runs →
  result_of (OR_loop call params)
  = Return (VBool (existsb (λ r, truthy r.2) runs)).
Proof.
  induction 1 as [|p r params runs Hp _ IH]; [done|]. cbn [OR_loop existsb].
  rewrite Hp, result_bind_Return. by destruct (truthy r.2).
Qed.

Lemma AND_loop_result params runs :
  all_return call params runs →
  result_of (AND_loop call params)
  = Return (VBool (forallb (λ r, truthy r.2) runs)).
Proof.
  induction 1 as [|p r params runs Hp _ IH]; [done|]. cbn [AND_loop forallb].
  rewrite Hp, result_bind_Return. by destruct (truthy r.2).
Qed.
End Results.

(** The run of a rule of the builder under its root: no engine, so the
    pattern is compiled again, ignoring case. *)
Lemma rule_eval_in_tree (s' : list Node) child (self : Engine) p text :
  s' !! child = Some (rule_for self p) → re_valid p = true →
  eval 1 s' child (Some text)
  = ([Eval child; Compile p true],
     Return (VBool (found {| rx_pattern := p; rx_ignorecase := true |} text))).
Proof.
  intros Hchild Hv. rewrite (eval_node _ _ _ _ _ Hchild). unfold dispatch.
  cbn [cls rule_for]. rewrite RegexOp_eval_no_engine.
  unfold own_matcher, rule_for. cbn [snd pattern case_sensitive negb].
  rewrite Hv, tell_bind, search_with_found. reflexivity.
Qed.

Section OnRules.
Variable call : oid → Run value.
Variable f : string → bool.

Lemma OR_loop_on_rules ids patterns :
  Forall2 (λ q p, ∃ t, call q = (t, Return (VBool (f p)))) ids patterns →
  result_of (OR_loop call ids) = Return (VBool (existsb f patterns)).
Proof.
  induction 1 as [|q p ids patterns [t Hq] _ IH]; [done|].
  cbn [OR_loop existsb]. rewrite Hq, result_bind_Return. cbn [truthy].
  by destruct (f p).
Qed.

Lemma AND_loop_on_rules ids patterns :
  Forall2 (λ q p, ∃ t, call q = (t, Return (VBool (f p)))) ids patterns →
  result_of (AND_loop call ids) = Return (VBool (forallb f patterns)).
Proof.
  induction 1 as [|q p ids patterns [t Hq] _ IH]; [done|].
  cbn [AND_loop forallb]. rewrite Hq, result_bind_Return. cbn [truthy].
  by destruct (f p).
Qed.
End OnRules.

Lemma built_rule_lookup (self : Engine) (s : list Node) rootnode patterns i p :
  patterns !! i = Some p →
  (s ++ rootnode :: (rule_for self <$> patterns)) !! (S (length s) + i)
  = Some (rule_for self p).
Proof.
  intros Hi. rewrite lookup_app_r by lia.
  replace (S (length s) + i - length s) with (S i) by lia.
  change ((rule_for self <$> patterns) !! i = Some (rule_for self p)).
  by rewrite list_lookup_fmap, Hi.
Qed.

Lemma built_rules_return (self : Engine) (s : list Node) rootnode patterns text :
  Forall (λ p, re_valid p = true) patterns →
  Forall2
    (λ q p, ∃ t,
       eval 1 (s ++ rootnode :: (rule_for self <$> patterns)) q (Some text)
       = (t, Return (VBool (found {| rx_pattern := p; rx_ignorecase := true |}
                              text))))
    (seq (S (length s)) (length patterns)) patterns.
Proof.
  intros Hv. apply Forall2_same_length_lookup_2; [by rewrite length_seq|].
  intros i q p Hq Hp. apply lookup_seq in Hq as [-> _].
  eexists. apply rule_eval_in_tree with self.
  - by apply built_rule_lookup.
  - by apply (Forall_lookup_1 _ _ _ _ Hv Hp).
Qed.

(** X16.  A rule built by [compound_regex_rule] ignores the cache the
    builder warmed.  Evaluating an [OR] (an [AND]) root on a text returns
    whether some pattern (every pattern) is found in the text ignoring
    case, because the root calls each rule without the engine; the very
    same rule evaluated directly with the engine searches case-sensitively
    with the matcher the builder cached. *)
Theorem built_rule_eval (self : Engine) (s : list Node) c patterns nm
    (self' : Engine) (s' : list Node) log root text :
  c = OR ∨ c = AND →
  Forall (λ p, re_valid p = true) patterns →
  compound_regex_rule (Some c) (Some patterns) nm (self, s)
  = ((self', s'), (log, Return root)) →
  result_of (eval 2 s' root (Some text))
  = Return (VBool
      (if decide (c = OR)
       then existsb
              (λ p, found {| rx_pattern := p; rx_ignorecase := true |} text)
              patterns
       else forallb
              (λ p, found {| rx_pattern := p; rx_ignorecase := true |} text)
              patterns))
  ∧ ∀ i p,
      patterns !! i = Some p →
      ∃ rule,
        s' !! (S root + i) = Some rule
        ∧ pattern rule = p
        ∧ result_of (eval 1 s' (S root + i) (Some text))
          = Return (VBool (found {| rx_pattern := p; rx_ignorecase := true |}
                             text))
        ∧ (RegexOp_eval rule (Some text) (Some self')).2
          = ret (VBool (found {| rx_pattern := p; rx_ignorecase := false |}
                          text)).
Proof.
  intros Hc Hv Hrun.
  assert (c ≠ RegexOp) as Hne by (destruct Hc as [-> | ->]; done).
  rewrite (compound_regex_rule_run _ _ _ _ _ Hne Hv) in Hrun.
  injection Hrun as <- <- _ <-.
  pose proof (built_rules_return self s
                (root_for self c nm (seq (S (length s)) (length patterns)))
                patterns text Hv) as Hrules.
  split.
  - rewrite (eval_node _ _ _
               (root_for self c nm (seq (S (length s)) (length patterns))))
      by (rewrite lookup_app_r, Nat.sub_diag by done; done).
    unfold dispatch, result_of at 1. cbn [snd cls parameters root_for].
    destruct Hc as [-> | ->]; cbn [decide decide_rel].
    + rewrite decide_True by done. by apply OR_loop_on_rules.
    + rewrite decide_False by done. by apply AND_loop_on_rules.
  - intros i p Hp. exists (rule_for self p).
    pose proof (built_rule_lookup self s
                  (root_for self c nm (seq (S (length s)) (length patterns)))
                  patterns i p Hp) as Hlook.
    split; [exact Hlook|]. split; [done|]. split.
    + rewrite (rule_eval_in_tree _ _ self p text Hlook); [done|].
      by apply (Forall_lookup_1 _ _ _ _ Hv Hp).
    + rewrite (RegexOp_eval_hit _ _ _
                 {| rx_pattern := p; rx_ignorecase := false |}).
      * apply search_with_found.
      * cbn [pattern rule_for re_cache with_cache]. apply warmed_lookup.
        left. by eapply list_elem_of_lookup_2.
Qed.
End BuiltRuleEval.

Section XorCalls.
Context `{ReModule}.

(** X17.  [XOR.eval] on two parameters that return calls the first and
    then the second; when the second returned a falsy value that is all,
    and when it returned a truthy value the second is called again if the
    first was truthy, and the first is called again. *)
Theorem XOR_eval_calls n s self node data c0 c1 t0 t1 v0 v1 :
  s !! self = Some node → cls node = XOR → parameters node = [c0; c1] →
  eval n s c0 data = (t0, Return v0) →
  eval n s c1 data = (t1, Return v1) →
  log_of (eval (S n) s self data)
  = Eval self
      :: t0 ++ t1
         ++ (if truthy v1 then (if truthy v0 then t1 ++ t0 else t0) else []).
Proof.
  intros Hnode Hcls Hps H0 H1. rewrite (eval_node _ _ _ _ _ Hnode).
  unfold dispatch. rewrite Hcls, Hps. unfold log_of at 1. cbn [fst].
  f_equal. unfold XOR_eval, and_not, call_at. cbn.
  rewrite H0, H1. cbn.
  destruct (truthy v0) eqn:E0, (truthy v1) eqn:E1; cbn;
    rewrite ?H0, ?H1; cbn; rewrite ?E0, ?E1; cbn;
    by rewrite ?app_nil_r, <- ?app_assoc.
Qed.
End XorCalls.

Lemma XOR_eval_calls_witness :
  log_of (eval (H:=literal_re) 2 Script.objects Script.test_xor2 None)
  = [Eval Script.test_xor2; Eval Script.test_true; Eval Script.test_true;
     Eval Script.test_true; Eval Script.test_true].
Proof.
  exact (XOR_eval_calls (H:=literal_re) 1 Script.objects Script.test_xor2
           (Script.op XOR [Script.test_true; Script.test_true]) None
           Script.test_true Script.test_true
           [Eval Script.test_true] [Eval Script.test_true]
           (VBool true) (VBool true)
           eq_refl eq_refl eq_refl eq_refl eq_refl).
Defined.

Lemma cache_regex_spec_witness :
  ∃ self',
    cache_regex (H:=literal_re) (Engine_init 0) "markman"
      (Some {| rx_pattern := "foobar"; rx_ignorecase := true |})
    = (self', ([], Return tt))
    ∧ RegexOp_eval (H:=literal_re) Prewarmed.contains_markman
        (Some "FooBar") (Some self')
      = (Some self',
         search_with (H:=literal_re)
           {| rx_pattern := "foobar"; rx_ignorecase := true |}
           (Some "FooBar")).
Proof.
  destruct (cache_regex_spec (H:=literal_re) (Engine_init 0) "markman"
              (Some {| rx_pattern := "foobar"; rx_ignorecase := true |}))
    as [Hok _].
  destruct Hok as (self' & Hrun & _ & _ & Heval); [left; by eexists|].
  exists self'. split; [exact Hrun|].
  exact (Heval Prewarmed.contains_markman (Some "FooBar") eq_refl).
Defined.

Lemma new_op_spec_witness :
  new_op (H:=literal_re) (Engine_init 0) Script.objects None Prewarmed.kw
  = (Engine_init 0, Script.objects,
     raise (ValueError "Engine.new_op(): optype can't be None."))
  ∧ ∃ node,
      (new_op (H:=literal_re) (Engine_init 0) Script.objects
         (Some AlwaysTrueOp)
         {| kw_name := Some "at2"; kw_pattern := None;
            kw_case_sensitive := None |}).1.2
      = Script.objects ++ [node]
      ∧ name node = Some "at2".
Proof.
  split.
  - by apply (new_op_spec (H:=literal_re)).
  - destruct (new_op_spec (H:=literal_re) (Engine_init 0) Script.objects
                (Some AlwaysTrueOp)
                {| kw_name := Some "at2"; kw_pattern := None;
                   kw_case_sensitive := None |})
      as (_ & _ & _ & Hnew & _).
    destruct (Hnew 15 eq_refl) as (_ & node & Hstore & _ & Hname & _).
    exists node. split; [exact Hstore|exact Hname].
Defined.

Lemma new_op_invalid_pattern_witness :
  ∃ node,
    new_op (H:=literal_re) (Engine_init 0) []
      (Some RegexOp)
      {| kw_name := None; kw_pattern := Some "(markman";
         kw_case_sensitive := None |}
    = (Engine_init 0, [] ++ [node],
       ([Compile "(markman" false], Raise re_error))
    ∧ cls node = RegexOp ∧ pattern node = "(markman" ∧ name node = None.
Proof.
  exact (new_op_invalid_pattern (H:=literal_re) (Engine_init 0) []
           {| kw_name := None; kw_pattern := Some "(markman";
              kw_case_sensitive := None |} "(markman" eq_refl eq_refl).
Defined.

Lemma get_op_after_new_op_witness :
  get_op
    (new_op (H:=literal_re) (Engine_init 0) [named "rule"] (Some AND)
       {| kw_name := Some "other"; kw_pattern := None;
          kw_case_sensitive := None |}).1.2
    (Some "other") = ret 1
  ∧ get_op
      (new_op (H:=literal_re) (Engine_init 0) [named "rule"] (Some AND)
         {| kw_name := Some "rule"; kw_pattern := None;
            kw_case_sensitive := None |}).1.2
      (Some "rule") = raise get_op_error.
Proof.
  split.
  - apply (get_op_after_new_op (H:=literal_re) (Engine_init 0) [named "rule"]
             AND {| kw_name := Some "other"; kw_pattern := None;
                    kw_case_sensitive := None |} 1 eq_refl).
    reflexivity.
  - apply (get_op_after_new_op (H:=literal_re) (Engine_init 0) [named "rule"]
             AND {| kw_name := Some "rule"; kw_pattern := None;
                    kw_case_sensitive := None |} 1 eq_refl).
    by vm_compute.
Defined.

Lemma Built_patterns_valid :
  Forall (λ p, re_valid (ReModule:=literal_re) p = true) Built.patterns.
Proof. by repeat constructor. Qed.

Lemma compound_regex_rule_builds_witness :
  Built.run
  = ((with_cache (Engine_init 0) (warmed ∅ Built.patterns),
      [] ++ root_for (Engine_init 0) OR (Some "rule") [1; 2]
         :: [rule_for (Engine_init 0) "markman";
             rule_for (Engine_init 0) "foobar"]),
     ([Compile "markman" false; Compile "foobar" false], Return 0)).
Proof.
  apply (compound_regex_rule_builds (H:=literal_re) (Engine_init 0) [] OR
           Built.patterns (Some "rule")); [done|exact Built_patterns_valid].
Defined.

Lemma compound_regex_rule_partial_witness :
  compound_regex_rule (H:=literal_re) (Some OR)
    (Some (["markman"] ++ "(foobar" :: ["order"])) None (Engine_init 0, [])
  = ((with_cache (Engine_init 0) (warmed ∅ ["markman"]),
      [] ++ root_for (Engine_init 0) OR None [1]
         :: [rule_for (Engine_init 0) "markman"]
            ++ [rule_for (Engine_init 0) "(foobar"]),
     ([Compile "markman" false] ++ [Compile "(foobar" false], Raise re_error)).
Proof.
  destruct (compound_regex_rule_partial (H:=literal_re) (Engine_init 0) [] None)
    as (_ & _ & Hbad).
  apply (Hbad OR ["markman"] "(foobar" ["order"]); [done| |reflexivity].
  by repeat constructor.
Defined.

Lemma built_rule_eval_witness :
  result_of (eval (H:=literal_re) 2 Built.objects 0 (Some Prewarmed.text))
  = Return (VBool true)
  ∧ ∃ rule,
      Built.objects !! 1 = Some rule
      ∧ pattern rule = "markman"
      ∧ result_of (eval (H:=literal_re) 1 Built.objects 1
                     (Some Prewarmed.text))
        = Return (VBool true)
      ∧ (RegexOp_eval (H:=literal_re) rule (Some Prewarmed.text)
           (Some Built.engine)).2
        = ret (VBool false).
Proof.
  destruct (built_rule_eval (H:=literal_re) (Engine_init 0) [] OR
              Built.patterns (Some "rule") Built.engine Built.objects
              [Compile "markman" false; Compile "foobar" false] 0
              Prewarmed.text (or_introl eq_refl) Built_patterns_valid)
    as [Hroot Hrules]; [by vm_compute|].
  split; [exact Hroot|].
  destruct (Hrules 0 "markman" eq_refl) as (rule & Hlook & Hpat & Htree & Hdirect).
  exists rule. split; [exact Hlook|]. split; [exact Hpat|].
  split; [exact Htree|exact Hdirect].
Defined.

Lemma RegexOp_eval_keeps_cache_witness :
  ∃ e',
    (RegexOp_eval (H:=literal_re) (Script.regex "foobar") (Some "foobar")
       (Some Prewarmed.engine)).1 = Some e'
    ∧ re_cache e' !! "markman"
      = Some {| rx_pattern := "markman"; rx_ignorecase := false |}.
Proof.
  destruct (RegexOp_eval_keeps_cache (H:=literal_re) (Script.regex "foobar")
              (Some "foobar") Prewarmed.engine) as [(e' & He' & Hkeep & _) _].
  exists e'. split; [exact He'|]. apply Hkeep. by vm_compute.
Defined.

Section CompileFirst.
Context `{ReModule}.

(** X18.  [RegexOp.compile] with an engine puts the operator's own matcher
    into the cache whatever was stored under the pattern before, and
    leaves the other entries alone; an evaluation of that operator with
    the engine right after it searches with the operator's own matcher,
    so it returns true exactly when the pattern matches somewhere in the
    text, ignoring case unless [case_sensitive] is set. *)
Theorem compile_then_eval (self : Node) (e : Engine) :
  re_valid (pattern self) = true →
  ∃ e',
    RegexOp_compile self (Some e)
    = (Some e',
       ([Compile (pattern self) (negb (case_sensitive self))],
        Return (own_matcher self)))
    ∧ (∀ q, q ≠ pattern self → re_cache e' !! q = re_cache e !! q)
    ∧ (∀ data,
         RegexOp_eval self data (Some e')
         = (Some e', search_with (own_matcher self) data))
    ∧ ∀ text,
        result_of (RegexOp_eval self (Some text) (Some e')).2
        = Return (VBool true)
        ↔ matches_somewhere (own_matcher self) text.
Proof.
  intros Hv. exists (re_cache_set e (pattern self) (own_matcher self)).
  assert (Hhit : re_cache (re_cache_set e (pattern self) (own_matcher self))
                 !! pattern self = Some (own_matcher self))
    by apply lookup_insert_eq.
  split; [by rewrite (RegexOp_compile_valid _ _ Hv)|].
  split; [intros q Hq; cbn; by rewrite lookup_insert_ne|].
  split; [intros data; by apply RegexOp_eval_hit|].
  intros text. rewrite (RegexOp_eval_hit _ _ _ _ Hhit).
  apply search_with_true.
Qed.
End CompileFirst.

Lemma compile_then_eval_witness :
  ∃ e',
    RegexOp_compile (H:=literal_re) Prewarmed.contains_markman
      (Some Prewarmed.engine)
    = (Some e',
       ([Compile "markman" true],
        Return {| rx_pattern := "markman"; rx_ignorecase := true |}))
    ∧ (result_of (RegexOp_eval (H:=literal_re) Prewarmed.contains_markman
                    (Some Prewarmed.text) (Some e')).2
       = Return (VBool true)
       ↔ matches_somewhere (H:=literal_re)
           {| rx_pattern := "markman"; rx_ignorecase := true |}
           Prewarmed.text).
Proof.
  destruct (compile_then_eval (H:=literal_re) Prewarmed.contains_markman
              Prewarmed.engine eq_refl) as (e' & Hrun & _ & _ & Hiff).
  exists e'. split; [exact Hrun|exact (Hiff Prewarmed.text)].
Defined.

(** ** [dump] *)

Lemma append_assoc (a b c : string) : (a +:+ b) +:+ c = a +:+ b +:+ c.
Proof.
  induction a as [|x a IH]; [done|].
  change (String x ((a +:+ b) +:+ c) = String x (a +:+ b +:+ c)).
  by rewrite IH.
Qed.

Lemma str_mul_add (text : string) (k n : nat) :
  str_mul text (k + n) = str_mul text k +:+ str_mul text n.
Proof.
  induction k as [|k IH]; [done|].
  change (text +:+ str_mul text (k + n)
          = (text +:+ str_mul text k) +:+ str_mul text n).
  by rewrite IH, append_assoc.
Qed.

Lemma print_bind_shifted {A B} prefix (m : Printed A) (k : A → Printed B) :
  print_bind (shifted prefix m) (λ a, shifted prefix (k a))
  = shifted prefix (print_bind m k).
Proof.
  destruct m as [out [a| |]]; try done. unfold shifted. cbn.
  destruct (k a) as [out' r]. cbn. by rewrite fmap_app.
Qed.

Lemma dump_loop_shifted prefix (call call' : oid → Printed unit) params :
  (∀ p, call' p = shifted prefix (call p)) →
  dump_loop call' params = shifted prefix (dump_loop call params).
Proof.
  intros Hcall. induction params as [|p rest IH]; [done|]. cbn [dump_loop].
  rewrite Hcall, IH.
  apply (print_bind_shifted prefix (call p) (λ _, dump_loop call rest)).
Qed.

Lemma print_bind_line {A} (line : string) (m : Printed A) :
  print_bind ([line], Return tt) (λ _, m) = (line :: m.1, m.2).
Proof. by destruct m. Qed.

(** X19.  Dumping an operator at a deeper indent prints the same lines,
    each behind that many more indent units, and ends the same way. *)
Theorem dump_indent fuel (s : list Node) self indent k :
  dump fuel s self (k + indent)
  = shifted (str_mul (str_mul DUMP_INDENT_CHAR DUMP_INDENT_SPACING) k)
      (dump fuel s self indent).
Proof.
  revert self indent. induction fuel as [|fuel IH]; intros self indent; [done|].
  cbn [dump]. destruct (s !! self) as [node|]; [|done].
  rewrite !print_bind_line.
  rewrite (dump_loop_shifted
             (str_mul (str_mul DUMP_INDENT_CHAR DUMP_INDENT_SPACING) k)
             (λ p, dump fuel s p (indent + 1))
             (λ p, dump fuel s p (k + indent + 1)))
    by (intros p; by rewrite <- Nat.add_assoc, IH).
  unfold shifted, dump_line. cbn [fst snd fmap list_fmap]. f_equal. f_equal.
  by rewrite str_mul_add, append_assoc.
Qed.

Lemma dump_loop_lines (call : oid → Printed unit) ids lines :
  Forall2 (λ q l, call q = ([l], Return tt)) ids lines →
  dump_loop call ids = (lines, Return tt).
Proof.
  induction 1 as [|q l ids lines Hq _ IH]; [done|]. cbn [dump_loop].
  by rewrite Hq, IH.
Qed.

Section DumpBuilt.
Context `{ReModule}.

(** X20.  Dumping a rule that [compound_regex_rule] built prints the line
    of the root, not indented, and then one line per pattern, in the order
    of the patterns, each for the [RegexOp] made for that pattern and
    indented by one unit; then it returns. *)
Theorem dump_built_rule (self : Engine) (s : list Node) c patterns nm
    (self' : Engine) (s' : list Node) log root :
  c ≠ RegexOp →
  Forall (λ p, re_valid p = true) patterns →
  compound_regex_rule (Some c) (Some patterns) nm (self, s)
  = ((self', s'), (log, Return root)) →
  dump 2 s' root 0
  = (dump_line (root_for self c nm (seq (S root) (length patterns))) root 0
       :: imap (λ i p, dump_line (rule_for self p) (S root + i) 1) patterns,
     Return tt).
Proof.
  intros Hne Hv Hrun.
  rewrite (compound_regex_rule_run _ _ _ _ _ Hne Hv) in Hrun.
  injection Hrun as <- <- _ <-.
  set (rootnode := root_for self c nm (seq (S (length s)) (length patterns))).
  cbn [dump]. rewrite lookup_app_r, Nat.sub_diag by done.
  cbn [lookup list_lookup]. rewrite print_bind_line.
  rewrite (dump_loop_lines _ _
             (imap (λ i p, dump_line (rule_for self p) (S (length s) + i) 1)
                patterns)); [done|].
  apply Forall2_same_length_lookup_2.
  { unfold rootnode. cbn [parameters root_for].
    by rewrite length_seq, length_imap. }
  intros i q l Hq Hl. unfold rootnode in Hq. cbn [parameters root_for] in Hq.
  apply lookup_seq in Hq as [-> _].
  rewrite list_lookup_imap in Hl.
  destruct (patterns !! i) as [p|] eqn:Hp; [|done]. injection Hl as <-.
  rewrite (built_rule_lookup self s rootnode patterns i p Hp).
  by rewrite print_bind_line.
Qed.
End DumpBuilt.

Lemma dump_built_rule_witness :
  dump 2 Built.objects 0 0
  = (dump_line (root_for (Engine_init 0) OR (Some "rule") [1; 2]) 0 0
       :: [dump_line (rule_for (Engine_init 0) "markman") 1 1;
           dump_line (rule_for (Engine_init 0) "foobar") 2 1],
     Return tt).
Proof.
  apply (dump_built_rule (H:=literal_re) (Engine_init 0) [] OR Built.patterns
           (Some "rule") Built.engine Built.objects
           [Compile "markman" false; Compile "foobar" false] 0);
    [done|exact Built_patterns_valid|by vm_compute].
Defined.

(** What the dump of the built rule looks like. *)
Example dump_built_rule_text :
  (dump 2 Built.objects 0 0).1
  = [ "+ pyple_op_or (name=" +:+ dquote +:+ "rule" +:+ dquote +:+ ") #0";
      "  + pyple_op_regex (pattern=" +:+ dquote +:+ "markman" +:+ dquote
        +:+ ") #1";
      "  + pyple_op_regex (pattern=" +:+ dquote +:+ "foobar" +:+ dquote
        +:+ ") #2" ].
Proof. by vm_compute. Qed.
